(** * Binaural beats generator: a shallow embedding of [bineural_beats.py]

    The Python class [BinauralBeatsApp] is embedded as follows.

    - Python [float] values are modelled by real numbers ([R]): [np.sin]
      is [sin], [np.pi] is [PI], and [np.mod x m] is the floored
      remainder [x - m * floor (x / m)].  This is the exact arithmetic
      that the code writes down; the statements that equate rendered
      samples and phases are made in it.  Where a statement bounds a
      value exactly, the rounding of doubles and the final
      [astype(np.float32)] cast matter, and the operations concerned
      are modelled again with their rounding (see "Double and single
      precision").
    - Python [int] values are [Z]; the frame count handed to the audio
      callback by the device is a [nat].
    - numpy arrays are lists.
    - The object [self] is the record [App].  The worker threads spawned
      by [start] and the stream objects created by [_play] live beside it
      in a [State]; a stream object is referred to by its position in the
      store, so that [self.stream] and the stream managed by the worker's
      [with] block can alias the same object.
    - Concurrency is an interleaving of atomic actions ([Action]): the
      commands of the control thread, one statement group of a worker
      thread, one invocation of the audio callback of an active stream. *)

From Stdlib Require Import Reals ZArith List String Bool Lia Lra.
Import ListNotations.

Open Scope R_scope.

(** ** numpy and Python primitives used by the source *)

Module Np.

(** [np.mod x m] on floats: the remainder has the sign of the divisor. *)
Definition mod_ (x m : R) : R := x - m * IZR (Int_part (x / m)).

(** [np.arange(n)] *)
Definition arange (n : nat) : list Z := map Z.of_nat (seq 0 n).

(** [np.cumsum]: running sums, left to right. *)
Fixpoint cumsum_from (acc : R) (l : list R) : list R :=
  match l with
  | [] => []
  | x :: l' => (acc + x) :: cumsum_from (acc + x) l'
  end.

Definition cumsum (l : list R) : list R := cumsum_from 0 l.

(** [np.zeros(n)] *)
Definition zeros (n : nat) : list R := repeat 0 n.

(** [a[-1]]: the last element, [None] standing for [IndexError]. *)
Fixpoint last_elem (l : list R) : option R :=
  match l with
  | [] => None
  | [x] => Some x
  | _ :: l' => last_elem l'
  end.

(** [np.stack([left, right], axis=1) * vol] *)
Definition stack_scaled (left right : list R) (vol : R) : list (R * R) :=
  map (fun lr => (fst lr * vol, snd lr * vol)) (combine left right).

End Np.

(** Python's [int(x)] on a float: truncation towards zero. *)
Definition py_int (x : R) : Z :=
  if Rle_dec 0 x then Int_part x else (- Int_part (- x))%Z.

(** ** The data model *)

(** The dictionary [self._cached_params]. *)
Record Params := mkParams {
  p_base : R;
  p_beat : R;
  p_mode : string;
  p_sr : Z;
  p_duration : option R
}.

(** The attributes of [self].  [phase_left], [phase_right] and
    [t_sample] are created by [_play]; before the first session they are
    given the value [_play] assigns first. *)
Record App := mkApp {
  is_playing : bool;
  stream : option nat;
  thread : option nat;
  sr : Z;
  duration : option R;
  volume : R;
  base_freq : R;
  beat_freq : R;
  mode : string;
  cached_params : option Params;
  thread_volume : R;
  phase_left : R;
  phase_right : R;
  t_sample : Z;
  toggle_btn : string
}.

Definition set_is_playing (a : App) (b : bool) : App :=
  mkApp b (stream a) (thread a) (sr a) (duration a) (volume a)
        (base_freq a) (beat_freq a) (mode a) (cached_params a)
        (thread_volume a) (phase_left a) (phase_right a) (t_sample a)
        (toggle_btn a).

Definition set_stream (a : App) (h : option nat) : App :=
  mkApp (is_playing a) h (thread a) (sr a) (duration a) (volume a)
        (base_freq a) (beat_freq a) (mode a) (cached_params a)
        (thread_volume a) (phase_left a) (phase_right a) (t_sample a)
        (toggle_btn a).

Definition set_thread (a : App) (w : option nat) : App :=
  mkApp (is_playing a) (stream a) w (sr a) (duration a) (volume a)
        (base_freq a) (beat_freq a) (mode a) (cached_params a)
        (thread_volume a) (phase_left a) (phase_right a) (t_sample a)
        (toggle_btn a).

Definition set_duration (a : App) (d : option R) : App :=
  mkApp (is_playing a) (stream a) (thread a) (sr a) d (volume a)
        (base_freq a) (beat_freq a) (mode a) (cached_params a)
        (thread_volume a) (phase_left a) (phase_right a) (t_sample a)
        (toggle_btn a).

Definition set_volume (a : App) (v : R) : App :=
  mkApp (is_playing a) (stream a) (thread a) (sr a) (duration a) v
        (base_freq a) (beat_freq a) (mode a) (cached_params a)
        (thread_volume a) (phase_left a) (phase_right a) (t_sample a)
        (toggle_btn a).

Definition set_entries (a : App) (base beat : R) (m : string) : App :=
  mkApp (is_playing a) (stream a) (thread a) (sr a) (duration a) (volume a)
        base beat m (cached_params a)
        (thread_volume a) (phase_left a) (phase_right a) (t_sample a)
        (toggle_btn a).

Definition set_cached_params (a : App) (p : option Params) : App :=
  mkApp (is_playing a) (stream a) (thread a) (sr a) (duration a) (volume a)
        (base_freq a) (beat_freq a) (mode a) p
        (thread_volume a) (phase_left a) (phase_right a) (t_sample a)
        (toggle_btn a).

Definition set_thread_volume (a : App) (v : R) : App :=
  mkApp (is_playing a) (stream a) (thread a) (sr a) (duration a) (volume a)
        (base_freq a) (beat_freq a) (mode a) (cached_params a)
        v (phase_left a) (phase_right a) (t_sample a)
        (toggle_btn a).

Definition set_phases (a : App) (pl pr : R) : App :=
  mkApp (is_playing a) (stream a) (thread a) (sr a) (duration a) (volume a)
        (base_freq a) (beat_freq a) (mode a) (cached_params a)
        (thread_volume a) pl pr (t_sample a)
        (toggle_btn a).

Definition set_t_sample (a : App) (t : Z) : App :=
  mkApp (is_playing a) (stream a) (thread a) (sr a) (duration a) (volume a)
        (base_freq a) (beat_freq a) (mode a) (cached_params a)
        (thread_volume a) (phase_left a) (phase_right a) t
        (toggle_btn a).

Definition set_toggle_btn (a : App) (txt : string) : App :=
  mkApp (is_playing a) (stream a) (thread a) (sr a) (duration a) (volume a)
        (base_freq a) (beat_freq a) (mode a) (cached_params a)
        (thread_volume a) (phase_left a) (phase_right a) (t_sample a)
        txt.

(** ** The audio callback (the closure [callback] inside [_play])

    [base], [beat], [mode_] and [sr_] are the local variables of [_play]
    captured by the closure; [a] is [self]. *)

Inductive Exception := CallbackStop | IndexError | ZeroDivisionError.

Inductive CallbackResult :=
| Rendered (outdata : list (R * R)) (a' : App)
| Raised (e : Exception).

Section Callback.

Variables (base beat : R) (mode_ : string) (sr_ : Z).

(** Lines 136-138: scale by the volume read at the top of the callback,
    write the buffer, advance the sample counter.  The values are the
    exact products; the rounding of the product and of the cast to
    [np.float32] is the subject of [sample_written]. *)
Definition emit (a : App) (vol : R) (left right : list R) (frames : nat)
  : CallbackResult :=
  Rendered (Np.stack_scaled left right vol)
           (set_t_sample a (t_sample a + Z.of_nat frames)%Z).

(** Lines 106-116.  [2 * np.pi * freq_left / sr] divides a Python float
    by the integer [sr], which raises when [sr] is zero. *)
Definition render_constant (a : App) (vol : R) (frames : nat)
  : CallbackResult :=
  if (sr_ =? 0)%Z then Raised ZeroDivisionError else
  let freq_left := base - beat / 2 in
  let freq_right := base + beat / 2 in
  let phase_inc_left := 2 * PI * freq_left / IZR sr_ in
  let phase_inc_right := 2 * PI * freq_right / IZR sr_ in
  let idx := Np.arange frames in
  let left := map (fun i => sin (phase_left a + phase_inc_left * IZR i)) idx in
  let right := map (fun i => sin (phase_right a + phase_inc_right * IZR i)) idx in
  let pl := phase_left a + phase_inc_left * IZR (Z.of_nat frames) in
  let pr := phase_right a + phase_inc_right * IZR (Z.of_nat frames) in
  emit (set_phases a (Np.mod_ pl (2 * PI)) (Np.mod_ pr (2 * PI)))
       vol left right frames.

(** Lines 118-126: the modulator and the two integrated phase arrays.
    These are numpy array operations: a zero [sr] yields infinities and
    NaNs there instead of an exception, which real numbers do not
    represent, so the statements about this mode assume [sr <> 0]. *)
Definition alt_modulation (t0 : Z) (frames : nat) : list R :=
  let t := map (fun i => (i + t0)%Z) (Np.arange frames) in
  let t_sec := map (fun x => IZR x / IZR sr_) t in
  map (fun ts => sin (2 * PI * beat * ts)) t_sec.

(** The arrays [2 * np.pi * freq_left / sr] and
    [2 * np.pi * freq_right / sr] of lines 125-126. *)
Definition alt_incs_left (t0 : Z) (frames : nat) : list R :=
  let freq_left := map (fun m => base - (m * beat / 2)) (alt_modulation t0 frames) in
  map (fun f => 2 * PI * f / IZR sr_) freq_left.

Definition alt_incs_right (t0 : Z) (frames : nat) : list R :=
  let freq_right := map (fun m => base + (m * beat / 2)) (alt_modulation t0 frames) in
  map (fun f => 2 * PI * f / IZR sr_) freq_right.

Definition alt_phase_left (t0 : Z) (frames : nat) : list R :=
  Np.cumsum (alt_incs_left t0 frames).

Definition alt_phase_right (t0 : Z) (frames : nat) : list R :=
  Np.cumsum (alt_incs_right t0 frames).

(** Lines 118-133.  [phase_left[-1]] raises [IndexError] on an empty
    array, before any attribute of [self] is assigned. *)
Definition render_alternating (a : App) (vol : R) (frames : nat)
  : CallbackResult :=
  let phase_l := alt_phase_left (t_sample a) frames in
  let phase_r := alt_phase_right (t_sample a) frames in
  let left := map (fun p => sin (phase_left a + p)) phase_l in
  let right := map (fun p => sin (phase_right a + p)) phase_r in
  match Np.last_elem phase_l, Np.last_elem phase_r with
  | Some last_l, Some last_r =>
      let pl := phase_left a + last_l in
      let pr := phase_right a + last_r in
      emit (set_phases a (Np.mod_ pl (2 * PI)) (Np.mod_ pr (2 * PI)))
           vol left right frames
  | _, _ => Raised IndexError
  end.

(** Lines 99-138. *)
Definition callback (a : App) (frames : nat) : CallbackResult :=
  let vol := thread_volume a in
  if negb (is_playing a) then Raised CallbackStop
  else if String.eqb mode_ "constant" then render_constant a vol frames
  else if String.eqb mode_ "alternating" then render_alternating a vol frames
  else emit a vol (Np.zeros frames) (Np.zeros frames) frames.

End Callback.

(** The callback of a stream whose closure captured the parameters [p]. *)
Definition callback_of (p : Params) : App -> nat -> CallbackResult :=
  callback (p_base p) (p_beat p) (p_mode p) (p_sr p).

(** ** Streams, workers and the whole state *)

(** What the model keeps of a [sd.OutputStream]: whether it has been
    opened, started, stopped or closed, and the local variables of
    [_play] that its callback closed over.  Of the sounddevice library
    the model assumes: entering [with stream:] starts the stream and
    raises if it cannot be started; leaving the block stops and closes
    it; [stop()] and [close()] ignore errors, so repeating them on a
    closed stream does nothing more; a stream whose callback raises is
    halted by the host runtime and invokes the callback no further. *)
Inductive Status := Opened | Active | Stopped | Closed.

Record Stream := mkStream {
  status : Status;
  closure : Params
}.

(** The control points of a thread running [_play]. *)
Inductive Worker :=
| WSpawned                                  (* before line 88 *)
| WOpening (p : Params) (frames_total : option Z)   (* before line 140 *)
| WEntering (frames_total : option Z)       (* before [with self.stream] *)
| WPolling (frames_total : option Z) (h : nat)      (* lines 145-150 *)
| WLeaving (h : nat)                        (* leaving the [with] block *)
| WResetting                                (* before line 151 *)
| WDone
| WCrashed.

Record State := mkState {
  self : App;
  workers : list Worker;
  streams : list Stream
}.

Fixpoint update {A : Type} (l : list A) (i : nat) (f : A -> A) : list A :=
  match l, i with
  | [], _ => []
  | x :: l', O => f x :: l'
  | x :: l', S i' => x :: update l' i' f
  end.

(** [Stream.stop()] and [Stream.close()], both with errors ignored. *)
Definition stream_stop (st : Stream) : Stream :=
  match status st with
  | Active => mkStream Stopped (closure st)
  | _ => st
  end.

Definition stream_close (st : Stream) : Stream := mkStream Closed (closure st).

Definition stop_and_close (ss : list Stream) (h : nat) : list Stream :=
  update (update ss h stream_stop) h stream_close.

(** ** The control path *)

(** Lines 54-58. *)
Definition update_toggle_btn (a : App) : App :=
  if is_playing a then set_toggle_btn a "Stop" else set_toggle_btn a "Start".

(** Lines 42-45. *)
Definition on_volume_release (a : App) : App :=
  set_thread_volume a (volume a).

(** Lines 60-76.  The entry fields are taken to hold text that parses as
    a number: on other text [get()] raises at lines 65-66, before any
    attribute is written, and that path is not modelled. *)
Definition start (s : State) : State :=
  let a := self s in
  if is_playing a then s
  else
    let a1 := set_cached_params a
                (Some (mkParams (base_freq a) (beat_freq a) (mode a)
                                (sr a) (duration a))) in
    let a2 := set_thread_volume a1 (volume a1) in
    let a3 := set_is_playing a2 true in
    let a4 := set_thread a3 (Some (List.length (workers s))) in
    mkState (update_toggle_btn a4) (workers s ++ [WSpawned]) (streams s).

(** Lines 78-84. *)
Definition stop (s : State) : State :=
  let a := set_is_playing (self s) false in
  match stream a with
  | Some h =>
      mkState (update_toggle_btn (set_stream a None)) (workers s)
              (stop_and_close (streams s) h)
  | None => mkState (update_toggle_btn a) (workers s) (streams s)
  end.

(** Lines 47-52. *)
Definition toggle_play (s : State) : State :=
  let s' := if is_playing (self s) then stop s else start s in
  mkState (update_toggle_btn (self s')) (workers s') (streams s').

(** ** The session worker ([_play]) *)

(** Line 94.  The product is the exact one; the code truncates the
    product rounded to a double, which is the next integer when the
    exact product lies within rounding distance below it. *)
Definition frames_total_of (p : Params) : option Z :=
  match p_duration p with
  | None => None
  | Some d => Some (py_int (IZR (p_sr p) * d))
  end.

(** The loop conditions of lines 146 and 149. *)
Definition keep_polling (a : App) (frames_total : option Z) : bool :=
  match frames_total with
  | None => is_playing a
  | Some n => is_playing a && (t_sample a <? n)%Z
  end.

(** One statement group of a worker.  The result is the next control
    point with the new [self] and stream store; [None] when the worker
    has terminated. *)
Definition worker_step (w : Worker) (a : App) (ss : list Stream)
  : option (Worker * App * list Stream) :=
  match w with
  | WSpawned =>
      (* lines 88-97 *)
      match cached_params a with
      | None => Some (WCrashed, a, ss)
      | Some p =>
          Some (WOpening p (frames_total_of p),
                set_t_sample (set_phases a 0 0) 0%Z, ss)
      end
  | WOpening p ft =>
      (* lines 140-142 *)
      Some (WEntering ft, set_stream a (Some (List.length ss)),
            ss ++ [mkStream Opened p])
  | WEntering ft =>
      (* line 143: [self.stream] is read again; [__enter__] starts it *)
      match stream a with
      | None => Some (WCrashed, a, ss)
      | Some h =>
          match option_map status (nth_error ss h) with
          | Some Opened | Some Stopped =>
              Some (WPolling ft h, a,
                    update ss h (fun st => mkStream Active (closure st)))
          | _ => Some (WCrashed, a, ss)
          end
      end
  | WPolling ft h =>
      (* lines 145-150: one evaluation of the loop condition *)
      if keep_polling a ft then Some (WPolling ft h, a, ss)
      else Some (WLeaving h, a, ss)
  | WLeaving h =>
      (* [__exit__]: stop and close the managed stream *)
      Some (WResetting, a, stop_and_close ss h)
  | WResetting =>
      (* line 151 *)
      Some (WDone, set_t_sample a 0%Z, ss)
  | WDone | WCrashed => None
  end.

(** ** The interleaving semantics *)

Inductive Action :=
| AStart
| AStop
| ATogglePlay
| AVolumeRelease
| ASlide (v : R)                       (* the volume slider moves *)
| AEntries (base beat : R) (m : string) (* the entry fields and radio buttons *)
| AWorker (i : nat)
| ACallback (h : nat) (frames : nat).

Definition on_self (f : App -> App) (s : State) : State :=
  mkState (f (self s)) (workers s) (streams s).

Definition step (act : Action) (s : State) : option State :=
  match act with
  | AStart => Some (start s)
  | AStop => Some (stop s)
  | ATogglePlay => Some (toggle_play s)
  | AVolumeRelease => Some (on_self on_volume_release s)
  | ASlide v =>
      if Rle_dec 0 v then
        if Rle_dec v 1 then Some (on_self (fun a => set_volume a v) s)
        else None
      else None
  | AEntries base beat m =>
      Some (on_self (fun a => set_entries a base beat m) s)
  | AWorker i =>
      match nth_error (workers s) i with
      | None => None
      | Some w =>
          match worker_step w (self s) (streams s) with
          | None => None
          | Some (w', a', ss') =>
              Some (mkState a' (update (workers s) i (fun _ => w')) ss')
          end
      end
  | ACallback h frames =>
      match nth_error (streams s) h with
      | Some (mkStream Active p) =>
          match callback_of p (self s) frames with
          | Rendered _ a' => Some (mkState a' (workers s) (streams s))
          | Raised _ =>
              (* the host audio runtime halts the stream *)
              Some (mkState (self s) (workers s)
                            (update (streams s) h stream_stop))
          end
      | _ => None
      end
  end.

Fixpoint run (trace : list Action) (s : State) : option State :=
  match trace with
  | [] => Some s
  | act :: trace' =>
      match step act s with
      | None => None
      | Some s' => run trace' s'
      end
  end.

(** [__init__] (lines 8-23) followed by [_build_ui], which labels the
    toggle button "Start". *)
Definition init_app : App :=
  mkApp false None None 44100%Z None (5 / 10) 200 10 "constant" None
        (5 / 10) 0 0 0%Z "Start".

Definition init : State := mkState init_app [] [].

Inductive reachable : State -> Prop :=
| reachable_init : reachable init
| reachable_step act s s' :
    reachable s -> step act s = Some s' -> reachable s'.

(** The status of the stream object [h], if it exists. *)
Definition status_of (s : State) (h : nat) : option Status :=
  option_map status (nth_error (streams s) h).

(** ** Vocabulary of the statements *)

(** Both samples of a stereo frame lie in [[-vol, vol]]. *)
Definition within_volume (vol : R) (lr : R * R) : Prop :=
  (- vol <= fst lr <= vol) /\ (- vol <= snd lr <= vol).

(** The two mode strings the callback knows. *)
Definition recognized (m : string) : Prop :=
  m = "constant"%string \/ m = "alternating"%string.

(** What the device needs for the callback to render [frames] frames:
    playback has not been asked to stop, the sample rate is not zero,
    and the alternating mode gets at least one frame. *)
Definition renderable (mode_ : string) (sr_ : Z) (a : App) (frames : nat)
  : Prop :=
  is_playing a = true /\ sr_ <> 0%Z /\
  (mode_ = "alternating"%string -> (0 < frames)%nat).

(** [k] consecutive invocations of the callback of stream [h]. *)
Definition callbacks (h : nat) (frames : nat) (k : nat) : list Action :=
  repeat (ACallback h frames) k.

(** The label of the toggle button agrees with the running flag. *)
Definition btn_consistent (a : App) : Prop :=
  toggle_btn a = if is_playing a then "Stop"%string else "Start"%string.

(** The application as [__init__] leaves it, but with the attribute
    [duration] set to [d] seconds. *)
Definition init_with_duration (d : R) : State :=
  on_self (fun a => set_duration a (Some d)) init.

(** A worker running [_play] undisturbed from its first statement to its
    last when the loop is left at the first evaluation of its condition:
    lines 88-97, 140-142, [__enter__], the loop test, [__exit__],
    line 151. *)
Definition worker_to_end (i : nat) : list Action :=
  repeat (AWorker i) 6.

(** A worker from its first statement up to the polling loop: lines
    88-97, 140-142 and [__enter__]. *)
Definition worker_setup (i : nat) : list Action :=
  repeat (AWorker i) 3.

(** A polling worker from a loop test that fails to its last statement:
    the loop test, [__exit__], line 151. *)
Definition worker_teardown (i : nat) : list Action :=
  repeat (AWorker i) 3.

(** The commands of the control thread that write [self.is_playing]:
    [start], [stop] and [toggle_play]. *)
Definition is_command (act : Action) : bool :=
  match act with
  | AStart | AStop | ATogglePlay => true
  | _ => false
  end.

(** The buffer a callback invocation wrote, if it rendered one. *)
Definition rendered_out (r : CallbackResult) : option (list (R * R)) :=
  match r with
  | Rendered out _ => Some out
  | Raised _ => None
  end.

(** Consecutive invocations of one callback with the frame counts [ns],
    each from the state the previous one left: the concatenated output
    and the final state, or [None] if an invocation raised. *)
Fixpoint render_buffers (base beat : R) (mode_ : string) (sr_ : Z)
    (a : App) (ns : list nat) : option (list (R * R) * App) :=
  match ns with
  | [] => Some ([], a)
  | n :: ns' =>
      match callback base beat mode_ sr_ a n with
      | Rendered out a' =>
          match render_buffers base beat mode_ sr_ a' ns' with
          | Some (outs, a'') => Some (out ++ outs, a'')
          | None => None
          end
      | Raised _ => None
      end
  end.

(** The volume variable and its copy for the audio thread are slider
    positions. *)
Definition volumes_in_range (a : App) : Prop :=
  (0 <= volume a <= 1) /\ (0 <= thread_volume a <= 1).

(** How a stream object may differ between two states: it keeps the
    variables its callback closed over, and once closed it stays
    closed. *)
Definition evolves (st st' : Stream) : Prop :=
  closure st' = closure st /\ (status st = Closed -> status st' = Closed).

(** Start, Stop and Start again before the first worker has run: both
    workers are then brought to their loops, the first before the
    second. *)
Definition two_sessions : list Action :=
  [AStart; AStop; AStart] ++ worker_setup 0 ++ worker_setup 1.

(** The same three commands; the first worker reaches its loop, the
    second executes lines 88-97 and 140-142, the first stream renders a
    buffer of 1024 frames, and only then the second worker enters its
    [with] block and its stream starts. *)
Definition late_second_stream : list Action :=
  [AStart; AStop; AStart] ++ worker_setup 0
  ++ [AWorker 1; AWorker 1; ACallback 0 1024; AWorker 1].

(** ** Double and single precision

    Where a statement bounds a value exactly, the rounding of the code's
    arithmetic matters, and the operations concerned are modelled on the
    numbers the formats hold.  A finite number of a binary format is
    [m * 2 ^ e] with a bounded significand and exponent; an operation
    returns a representable number nearest to the exact result (which
    one of two equally near numbers is left open; results beyond the
    largest finite number are not modelled). *)

Definition pow2 (e : Z) : R := powerRZ 2 e.

Definition representable (prec emin emax : Z) (x : R) : Prop :=
  exists m e : Z,
    (Z.abs m < 2 ^ prec)%Z /\ (emin <= e <= emax)%Z /\ x = IZR m * pow2 e.

(** Python's [float] and [np.float64]. *)
Definition binary64 : R -> Prop := representable 53 (-1074) 971.

(** [np.float32]. *)
Definition binary32 : R -> Prop := representable 24 (-149) 104.

Definition nearest (F : R -> Prop) (t z : R) : Prop :=
  F z /\ forall y, F y -> Rabs (z - t) <= Rabs (y - t).







(** Lines 136-137 for one channel of one frame: the double [s] of the
    channel array ([np.sin] of something, or 0.0) times the volume, cast
    to [np.float32]; [z] is the sample written. *)
Definition sample_written (s vol z : R) : Prop :=
  exists p, nearest binary64 (s * vol) p /\ nearest binary32 p z.

(** The double 0.1 and the single-precision number next above it. *)
Definition tenth_f64 : R := IZR 3602879701896397 * pow2 (-55).
Definition tenth_f32 : R := IZR 13421773 * pow2 (-27).

(** ** Proof automation *)

(** Evaluation of a concrete trace; real-number expressions stay as
    they are written. *)
Ltac run_trace :=
  lazy -[Rdiv Rmult Rplus Rminus Ropp Rinv IZR sin PI py_int Int_part
         Np.mod_ Rle_dec].

(** [renderable] at a concrete input. *)
Ltac renderable_here :=
  unfold renderable;
  split; [reflexivity | split; [discriminate | intros _; lia]].

(** * Properties *)

(** ** Facts about the numeric primitives *)

Section Numeric.

Lemma sin_period_Z (x : R) (k : Z) : sin (x + 2 * IZR k * PI) = sin x.
Proof.
  destruct k as [| p | p].
  - f_equal. simpl. ring.
  - rewrite <- (sin_period x (Pos.to_nat p)).
    rewrite INR_IZR_INZ, positive_nat_Z. reflexivity.
  - rewrite <- (sin_period (x + 2 * IZR (Z.neg p) * PI) (Pos.to_nat p)).
    rewrite INR_IZR_INZ, positive_nat_Z. f_equal.
    change (Z.neg p) with (- Z.pos p)%Z. rewrite opp_IZR. ring.
Qed.

Lemma two_PI_pos : 0 < 2 * PI.
Proof. pose proof PI_RGT_0. lra. Qed.

Lemma mod_frac (x m : R) : m <> 0 -> Np.mod_ x m = m * frac_part (x / m).
Proof.
  intros Hm. unfold Np.mod_, frac_part. field. exact Hm.
Qed.

Lemma mod_range (x m : R) : 0 < m -> 0 <= Np.mod_ x m < m.
Proof.
  intros Hm. rewrite mod_frac by lra.
  destruct (base_fp (x / m)) as [H0 H1]. split.
  - apply Rmult_le_pos; lra.
  - assert (H : m * frac_part (x / m) < m * 1)
      by (apply Rmult_lt_compat_l; lra).
    lra.
Qed.

Lemma Int_part_shift (r : R) (k : Z) :
  Int_part (r + IZR k) = (Int_part r + k)%Z.
Proof.
  symmetry. apply Int_part_spec. rewrite plus_IZR.
  destruct (base_Int_part r) as [H1 H2]. lra.
Qed.

Lemma mod_absorb (x y m : R) :
  m <> 0 -> Np.mod_ (Np.mod_ x m + y) m = Np.mod_ (x + y) m.
Proof.
  intros Hm.
  assert (E : (Np.mod_ x m + y) / m
              = (x + y) / m + IZR (- Int_part (x / m))).
  { unfold Np.mod_. rewrite opp_IZR. field. exact Hm. }
  unfold Np.mod_ at 1. rewrite E, Int_part_shift, plus_IZR, opp_IZR.
  unfold Np.mod_. ring.
Qed.

Lemma sin_mod_2PI (x y : R) : sin (Np.mod_ x (2 * PI) + y) = sin (x + y).
Proof.
  unfold Np.mod_.
  rewrite <- (sin_period_Z (x + y) (- Int_part (x / (2 * PI)))).
  f_equal. rewrite opp_IZR. ring.
Qed.

Lemma py_int_IZR (z : Z) : py_int (IZR z) = z.
Proof.
  unfold py_int. destruct (Rle_dec 0 (IZR z)) as [H | H].
  - symmetry. apply Int_part_spec. lra.
  - rewrite <- opp_IZR. rewrite <- (Int_part_spec (IZR (- z)) (- z)%Z); [lia | lra].
Qed.

End Numeric.

(** ** Facts about arrays *)

Section Arrays.

Lemma arange_length n : List.length (Np.arange n) = n.
Proof. unfold Np.arange. now rewrite length_map, length_seq. Qed.

Lemma seq_offset n m : seq n m = map (fun i => (i + n)%nat) (seq 0 m).
Proof.
  revert n. induction m as [| m IH]; intros n; simpl; [reflexivity |].
  f_equal. rewrite (IH (S n)), <- seq_shift, map_map.
  apply map_ext. intros i. lia.
Qed.

Lemma arange_app n m :
  Np.arange (n + m)
  = Np.arange n ++ map (fun i => (i + Z.of_nat n)%Z) (Np.arange m).
Proof.
  unfold Np.arange. rewrite seq_app, map_app. f_equal.
  simpl. rewrite (seq_offset n m), !map_map.
  apply map_ext. intros i. lia.
Qed.

Lemma arange_nth n i :
  (i < n)%nat -> nth_error (Np.arange n) i = Some (Z.of_nat i).
Proof.
  intros H. unfold Np.arange.
  rewrite nth_error_map, nth_error_seq.
  destruct (Nat.ltb_spec i n); [reflexivity | lia].
Qed.

Lemma cumsum_from_length acc l :
  List.length (Np.cumsum_from acc l) = List.length l.
Proof. revert acc. induction l; intros; simpl; auto. Qed.

Lemma cumsum_from_shift acc l :
  Np.cumsum_from acc l = map (Rplus acc) (Np.cumsum_from 0 l).
Proof.
  revert acc. induction l as [| x l IH]; intros acc; simpl; [reflexivity |].
  f_equal; [ring |].
  rewrite (IH (acc + x)), (IH (0 + x)), map_map.
  apply map_ext. intros y. ring.
Qed.

Lemma cumsum_from_app acc l1 l2 :
  Np.cumsum_from acc (l1 ++ l2)
  = Np.cumsum_from acc l1 ++ Np.cumsum_from (fold_left Rplus l1 acc) l2.
Proof.
  revert acc. induction l1 as [| x l1 IH]; intros acc; simpl; [reflexivity |].
  now rewrite IH.
Qed.

Lemma fold_left_Rplus_shift l acc :
  fold_left Rplus l acc = acc + fold_left Rplus l 0.
Proof.
  revert acc. induction l as [| x l IH]; intros acc; simpl; [ring |].
  rewrite (IH (acc + x)), (IH (0 + x)). ring.
Qed.

Lemma last_elem_cumsum_from acc l :
  l <> [] ->
  Np.last_elem (Np.cumsum_from acc l) = Some (fold_left Rplus l acc).
Proof.
  revert acc. induction l as [| x l IH]; intros acc Hne; [congruence |].
  destruct l as [| y l]; [reflexivity |].
  specialize (IH (acc + x) ltac:(discriminate)).
  simpl in *. exact IH.
Qed.

Lemma stack_scaled_app l1 r1 l2 r2 vol :
  List.length l1 = List.length r1 ->
  Np.stack_scaled (l1 ++ l2) (r1 ++ r2) vol
  = Np.stack_scaled l1 r1 vol ++ Np.stack_scaled l2 r2 vol.
Proof.
  intros H. unfold Np.stack_scaled.
  rewrite <- map_app. f_equal.
  revert r1 H. induction l1 as [| x l1 IH]; intros [| y r1] H; simpl in *;
    try discriminate; [reflexivity |].
  f_equal. apply IH. congruence.
Qed.

Lemma stack_scaled_length l r vol :
  List.length l = List.length r ->
  List.length (Np.stack_scaled l r vol) = List.length l.
Proof.
  intros H. unfold Np.stack_scaled.
  rewrite length_map, length_combine. lia.
Qed.

Lemma stack_scaled_zeros n vol :
  Np.stack_scaled (Np.zeros n) (Np.zeros n) vol = repeat (0, 0) n.
Proof.
  unfold Np.stack_scaled, Np.zeros.
  induction n as [| n IH]; simpl; [reflexivity |].
  rewrite IH. f_equal. f_equal; ring.
Qed.

Lemma stack_scaled_nth (l r : list R) vol i x y :
  nth_error l i = Some x -> nth_error r i = Some y ->
  nth_error (Np.stack_scaled l r vol) i = Some (x * vol, y * vol).
Proof.
  unfold Np.stack_scaled. revert r i.
  induction l as [| a l IH]; intros [| b r] [| i] Hx Hy; simpl in *;
    try discriminate.
  - congruence.
  - now apply IH.
Qed.

Lemma stack_scaled_bound (l r : list R) vol :
  0 <= vol ->
  Forall (fun x => -1 <= x <= 1) l ->
  Forall (fun x => -1 <= x <= 1) r ->
  Forall (fun lr => (- vol <= fst lr <= vol) /\ (- vol <= snd lr <= vol))
         (Np.stack_scaled l r vol).
Proof.
  intros Hv Hl. unfold Np.stack_scaled. revert r.
  induction Hl as [| x l Hx Hl IH]; intros r Hr; [constructor |].
  destruct Hr as [| y r Hy Hr]; [constructor |].
  simpl. constructor; [| now apply IH].
  simpl. split; split; nra.
Qed.

End Arrays.

(** ** The callback, branch by branch *)

Section CallbackFacts.

Variables (base beat : R) (mode_ : string) (sr_ : Z).

Lemma callback_constant a frames :
  is_playing a = true -> mode_ = "constant"%string -> sr_ <> 0%Z ->
  callback base beat mode_ sr_ a frames
  = Rendered
      (Np.stack_scaled
         (map (fun i => sin (phase_left a + (2 * PI * (base - beat / 2) / IZR sr_) * IZR i)) (Np.arange frames))
         (map (fun i => sin (phase_right a + (2 * PI * (base + beat / 2) / IZR sr_) * IZR i)) (Np.arange frames))
         (thread_volume a))
      (set_t_sample
         (set_phases a
            (Np.mod_ (phase_left a + (2 * PI * (base - beat / 2) / IZR sr_) * IZR (Z.of_nat frames)) (2 * PI))
            (Np.mod_ (phase_right a + (2 * PI * (base + beat / 2) / IZR sr_) * IZR (Z.of_nat frames)) (2 * PI)))
         (t_sample a + Z.of_nat frames)).
Proof.
  intros Hp Hm Hs. unfold callback, render_constant. rewrite Hp, Hm. simpl.
  destruct (Z.eqb_spec sr_ 0); [contradiction | reflexivity].
Qed.

Lemma alt_modulation_app t0 n m :
  alt_modulation beat sr_ t0 (n + m)
  = alt_modulation beat sr_ t0 n
    ++ alt_modulation beat sr_ (t0 + Z.of_nat n) m.
Proof.
  unfold alt_modulation. rewrite arange_app, !map_app. f_equal.
  rewrite !map_map. apply map_ext. intros i.
  now replace (i + Z.of_nat n + t0)%Z with (i + (t0 + Z.of_nat n))%Z by lia.
Qed.

Lemma alt_incs_left_app t0 n m :
  alt_incs_left base beat sr_ t0 (n + m)
  = alt_incs_left base beat sr_ t0 n
    ++ alt_incs_left base beat sr_ (t0 + Z.of_nat n) m.
Proof. unfold alt_incs_left. now rewrite alt_modulation_app, !map_app. Qed.

Lemma alt_incs_right_app t0 n m :
  alt_incs_right base beat sr_ t0 (n + m)
  = alt_incs_right base beat sr_ t0 n
    ++ alt_incs_right base beat sr_ (t0 + Z.of_nat n) m.
Proof. unfold alt_incs_right. now rewrite alt_modulation_app, !map_app. Qed.

Lemma alt_incs_left_length t0 n :
  List.length (alt_incs_left base beat sr_ t0 n) = n.
Proof.
  unfold alt_incs_left, alt_modulation. now rewrite !length_map, arange_length.
Qed.

Lemma alt_incs_right_length t0 n :
  List.length (alt_incs_right base beat sr_ t0 n) = n.
Proof.
  unfold alt_incs_right, alt_modulation. now rewrite !length_map, arange_length.
Qed.

Lemma callback_alternating a frames :
  is_playing a = true -> mode_ = "alternating"%string -> (0 < frames)%nat ->
  callback base beat mode_ sr_ a frames
  = Rendered
      (Np.stack_scaled
         (map (fun p => sin (phase_left a + p))
              (Np.cumsum (alt_incs_left base beat sr_ (t_sample a) frames)))
         (map (fun p => sin (phase_right a + p))
              (Np.cumsum (alt_incs_right base beat sr_ (t_sample a) frames)))
         (thread_volume a))
      (set_t_sample
         (set_phases a
            (Np.mod_ (phase_left a
                      + fold_left Rplus
                          (alt_incs_left base beat sr_ (t_sample a) frames) 0)
                     (2 * PI))
            (Np.mod_ (phase_right a
                      + fold_left Rplus
                          (alt_incs_right base beat sr_ (t_sample a) frames) 0)
                     (2 * PI)))
         (t_sample a + Z.of_nat frames)).
Proof.
  intros Hp Hm Hf.
  unfold callback, render_alternating. rewrite Hp, Hm. simpl negb. cbv iota.
  change (String.eqb "alternating" "constant") with false.
  change (String.eqb "alternating" "alternating") with true. cbv iota.
  unfold alt_phase_left, alt_phase_right, Np.cumsum.
  pose proof (alt_incs_left_length (t_sample a) frames) as Ll.
  pose proof (alt_incs_right_length (t_sample a) frames) as Lr.
  rewrite !last_elem_cumsum_from
    by (intros E; rewrite E in *; simpl in *; lia).
  reflexivity.
Qed.

Lemma callback_fallback a frames :
  is_playing a = true ->
  mode_ <> "constant"%string -> mode_ <> "alternating"%string ->
  callback base beat mode_ sr_ a frames
  = Rendered (repeat (0, 0) frames)
             (set_t_sample a (t_sample a + Z.of_nat frames)).
Proof.
  intros Hp Hc Ha. unfold callback, emit. rewrite Hp. simpl.
  destruct (String.eqb_spec mode_ "constant"); [contradiction |].
  destruct (String.eqb_spec mode_ "alternating"); [contradiction |].
  now rewrite stack_scaled_zeros.
Qed.

Lemma callback_stop_requested a frames :
  is_playing a = false ->
  callback base beat mode_ sr_ a frames = Raised CallbackStop.
Proof. intros Hp. unfold callback. now rewrite Hp. Qed.

Lemma mode_cases :
  mode_ = "constant"%string \/ mode_ = "alternating"%string \/
  (mode_ <> "constant"%string /\ mode_ <> "alternating"%string).
Proof.
  destruct (String.eqb_spec mode_ "constant"); [now left |].
  destruct (String.eqb_spec mode_ "alternating"); [now right; left |].
  right; right; split; assumption.
Qed.

End CallbackFacts.

(** The callback renders whenever the device can ask it to. *)
Lemma callback_renders base beat mode_ sr_ a frames :
  renderable mode_ sr_ a frames ->
  exists out a',
    callback base beat mode_ sr_ a frames = Rendered out a' /\
    List.length out = frames /\
    t_sample a' = (t_sample a + Z.of_nat frames)%Z /\
    is_playing a' = true /\
    thread_volume a' = thread_volume a.
Proof.
  intros (Hp & Hs & Hf).
  destruct (mode_cases mode_) as [Hm | [Hm | [Hc Ha]]].
  - rewrite callback_constant by assumption.
    eexists _, _. split; [reflexivity |]. repeat split; auto.
    rewrite stack_scaled_length; now rewrite !length_map, arange_length.
  - rewrite callback_alternating by auto.
    eexists _, _. split; [reflexivity |]. repeat split; auto.
    unfold Np.cumsum.
    rewrite stack_scaled_length;
      rewrite !length_map, !cumsum_from_length,
        ?alt_incs_left_length, ?alt_incs_right_length; lia.
  - rewrite callback_fallback by assumption.
    eexists _, _. split; [reflexivity |]. repeat split; auto.
    apply repeat_length.
Qed.

Lemma callback_within_volume base beat mode_ sr_ a frames out a' :
  0 <= thread_volume a ->
  callback base beat mode_ sr_ a frames = Rendered out a' ->
  Forall (within_volume (thread_volume a)) out.
Proof.
  intros Hv.
  assert (Hsin : forall (f : R -> R) (l : list R),
             Forall (fun x => -1 <= x <= 1) (map (fun p => sin (f p)) l)).
  { intros f l. apply Forall_forall. intros x Hx.
    apply in_map_iff in Hx as (p & <- & _). apply SIN_bound. }
  assert (HsinZ : forall (f : Z -> R) (l : list Z),
             Forall (fun x => -1 <= x <= 1) (map (fun p => sin (f p)) l)).
  { intros f l. apply Forall_forall. intros x Hx.
    apply in_map_iff in Hx as (p & <- & _). apply SIN_bound. }
  unfold callback, render_constant, render_alternating, emit.
  destruct (is_playing a); simpl; [| discriminate].
  destruct (String.eqb_spec mode_ "constant").
  - destruct (sr_ =? 0)%Z; [discriminate |].
    intros E. injection E as <- _.
    apply stack_scaled_bound; auto.
  - destruct (String.eqb_spec mode_ "alternating").
    + destruct (Np.last_elem _); [| discriminate].
      destruct (Np.last_elem _); [| discriminate].
      intros E. injection E as <- _.
      apply stack_scaled_bound; auto.
    + intros E. injection E as <- _.
      rewrite stack_scaled_zeros. apply Forall_forall. intros lr Hlr.
      apply repeat_spec in Hlr. subst lr. unfold within_volume. simpl. lra.
Qed.

(** ** Claims about a single rendered buffer *)

(** C7.  For a mode string that is neither "constant" nor "alternating",
    the callback of a playing session raises nothing and renders, for
    every frame count, a buffer of that many all-zero stereo frames. *)
Theorem unrecognized_mode_silence base beat mode_ sr_ a frames :
  mode_ <> "constant"%string -> mode_ <> "alternating"%string ->
  is_playing a = true ->
  exists a',
    callback base beat mode_ sr_ a frames = Rendered (repeat (0, 0) frames) a'.
Proof.
  intros Hc Ha Hp. eexists. now apply callback_fallback.
Qed.

(** ** Phase continuity *)

Lemma constant_continuous base beat mode_ sr_ a n m :
  mode_ = "constant"%string -> is_playing a = true -> sr_ <> 0%Z ->
  exists o1 a1 o2 a2,
    callback base beat mode_ sr_ a n = Rendered o1 a1 /\
    callback base beat mode_ sr_ a1 m = Rendered o2 a2 /\
    callback base beat mode_ sr_ a (n + m) = Rendered (o1 ++ o2) a2.
Proof.
  intros Hm Hp Hs.
  rewrite (callback_constant base beat mode_ sr_ a n) by assumption.
  rewrite (callback_constant base beat mode_ sr_ a (n + m)) by assumption.
  eexists _, _, _, _. split; [reflexivity |]. split.
  - rewrite callback_constant by (simpl; assumption). reflexivity.
  - pose proof two_PI_pos as H2pi.
    f_equal.
    + rewrite arange_app, !map_app.
      rewrite stack_scaled_app by (now rewrite !length_map).
      f_equal. simpl. f_equal; rewrite map_map; apply map_ext; intros i;
        rewrite sin_mod_2PI; f_equal; rewrite plus_IZR; ring.
    + unfold set_t_sample, set_phases. simpl.
      rewrite !mod_absorb by lra.
      rewrite Nat2Z.inj_add, plus_IZR.
      f_equal; [f_equal; ring | f_equal; ring | lia].
Qed.

Lemma cumsum_app l1 l2 :
  Np.cumsum (l1 ++ l2)
  = Np.cumsum l1 ++ map (Rplus (fold_left Rplus l1 0)) (Np.cumsum l2).
Proof.
  unfold Np.cumsum. rewrite cumsum_from_app. f_equal.
  apply cumsum_from_shift.
Qed.

Lemma alternating_continuous base beat mode_ sr_ a n m :
  mode_ = "alternating"%string -> is_playing a = true ->
  (0 < n)%nat -> (0 < m)%nat ->
  exists o1 a1 o2 a2,
    callback base beat mode_ sr_ a n = Rendered o1 a1 /\
    callback base beat mode_ sr_ a1 m = Rendered o2 a2 /\
    callback base beat mode_ sr_ a (n + m) = Rendered (o1 ++ o2) a2.
Proof.
  intros Hm Hp Hn Hm'.
  rewrite (callback_alternating base beat mode_ sr_ a n) by assumption.
  rewrite (callback_alternating base beat mode_ sr_ a (n + m))
    by (auto; lia).
  eexists _, _, _, _. split; [reflexivity |]. split.
  - rewrite callback_alternating by (simpl; assumption). reflexivity.
  - pose proof two_PI_pos as H2pi.
    rewrite alt_incs_left_app, alt_incs_right_app, !cumsum_app, !map_app.
    f_equal.
    + rewrite stack_scaled_app
        by (unfold Np.cumsum;
            now rewrite !length_map, !cumsum_from_length,
              alt_incs_left_length, alt_incs_right_length).
      f_equal. simpl. f_equal; rewrite map_map; apply map_ext; intros p;
        rewrite sin_mod_2PI; f_equal; ring.
    + unfold set_t_sample, set_phases. simpl.
      rewrite !mod_absorb by lra.
      rewrite !fold_left_app.
      rewrite (fold_left_Rplus_shift
                 (alt_incs_left base beat sr_ (t_sample a + Z.of_nat n) m)).
      rewrite (fold_left_Rplus_shift
                 (alt_incs_right base beat sr_ (t_sample a + Z.of_nat n) m)).
      f_equal; [f_equal; ring | f_equal; ring | lia].
Qed.

(** C3.  In the constant and in the alternating mode rendering is
    phase-continuous: from any phase state and sample counter, a buffer
    of [n] frames followed by a buffer of [m] frames rendered from the
    state the first one left yields, sample for sample, the buffer of
    [n + m] frames rendered in one go, and leaves the same state. *)
Theorem phase_continuous base beat mode_ sr_ a n m :
  recognized mode_ ->
  renderable mode_ sr_ a n -> renderable mode_ sr_ a m ->
  exists o1 a1 o2 a2,
    callback base beat mode_ sr_ a n = Rendered o1 a1 /\
    callback base beat mode_ sr_ a1 m = Rendered o2 a2 /\
    callback base beat mode_ sr_ a (n + m) = Rendered (o1 ++ o2) a2.
Proof.
  intros [Hm | Hm] (Hp & Hs & Hn) (_ & _ & Hm').
  - now apply constant_continuous.
  - apply alternating_continuous; auto.
Qed.

(** ** The constant mode at the reference parameters *)

Lemma constant_reference_nth a frames i :
  is_playing a = true -> phase_left a = 0 -> phase_right a = 0 ->
  (i < frames)%nat ->
  exists out a',
    callback 200 10 "constant" 44100 a frames = Rendered out a' /\
    nth_error out i
    = Some (sin (2 * PI * 195 * (IZR (Z.of_nat i) / 44100)) * thread_volume a,
            sin (2 * PI * 205 * (IZR (Z.of_nat i) / 44100)) * thread_volume a).
Proof.
  intros Hp Hl Hr Hi.
  rewrite callback_constant by (auto; discriminate).
  eexists _, _. split; [reflexivity |].
  rewrite Hl, Hr.
  erewrite stack_scaled_nth;
    [ | rewrite nth_error_map, arange_nth by exact Hi; reflexivity
      | rewrite nth_error_map, arange_nth by exact Hi; reflexivity ].
  do 2 f_equal; f_equal; f_equal; field.
Qed.

(** C5, as amended.  In the constant mode with base 200, beat 10 and
    sample rate 44100, the first buffer rendered from phase 0 carries in
    its left channel [volume * sin (2 * PI * 195 * t)] and in its right
    channel [volume * sin (2 * PI * 205 * t)] at [t = index / 44100]:
    the sines of the claim, scaled by the volume read for that buffer. *)
Theorem constant_mode_reference a frames :
  is_playing a = true -> phase_left a = 0 -> phase_right a = 0 ->
  exists out a',
    callback 200 10 "constant" 44100 a frames = Rendered out a' /\
    List.length out = frames /\
    forall i, (i < frames)%nat ->
      nth_error out i
      = Some (thread_volume a * sin (2 * PI * 195 * (IZR (Z.of_nat i) / 44100)),
              thread_volume a * sin (2 * PI * 205 * (IZR (Z.of_nat i) / 44100))).
Proof.
  intros Hp Hl Hr.
  destruct (callback_renders 200 10 "constant" 44100 a frames)
    as (out & a' & E & L & _).
  { repeat split; auto; discriminate. }
  exists out, a'. repeat split; auto.
  intros i Hi.
  destruct (constant_reference_nth a frames i Hp Hl Hr Hi)
    as (out' & a'' & E' & N).
  rewrite E in E'. injection E' as -> ->. rewrite N.
  f_equal. f_equal; ring.
Qed.

Lemma constant_mode_reference_witness :
  exists out a',
    callback 200 10 "constant" 44100 (set_is_playing init_app true) 4
    = Rendered out a' /\
    List.length out = 4%nat /\
    forall i, (i < 4)%nat ->
      nth_error out i
      = Some (thread_volume (set_is_playing init_app true)
              * sin (2 * PI * 195 * (IZR (Z.of_nat i) / 44100)),
              thread_volume (set_is_playing init_app true)
              * sin (2 * PI * 205 * (IZR (Z.of_nat i) / 44100))).
Proof.
  apply (constant_mode_reference (set_is_playing init_app true) 4);
    reflexivity.
Defined.

(** C5, as stated, fails: at the volume every session starts with (0.5),
    the second frame of the first buffer does not carry
    [sin (2 * PI * 195 * t)] in its left channel. *)
Lemma constant_mode_unscaled_fails :
  exists out a',
    callback 200 10 "constant" 44100 (set_is_playing init_app true) 1024
    = Rendered out a' /\
    exists l r,
      nth_error out 1 = Some (l, r) /\
      l <> sin (2 * PI * 195 * (IZR 1 / 44100)).
Proof.
  destruct (constant_reference_nth (set_is_playing init_app true) 1024 1)
    as (out & a' & E & N); try reflexivity; [lia |].
  exists out, a'. split; [exact E |].
  eexists _, _. split; [exact N |].
  simpl thread_volume. simpl Z.of_nat.
  assert (Hs : 0 < sin (2 * PI * 195 * (1 / 44100))).
  { pose proof PI_RGT_0. apply sin_gt_0; lra. }
  lra.
Qed.

(** ** Stores of workers and streams *)

Section Stores.

Context {A : Type}.

Lemma update_length (l : list A) i f :
  List.length (update l i f) = List.length l.
Proof.
  revert i. induction l as [| x l IH]; intros [| i]; simpl; auto.
Qed.

Lemma nth_error_update_eq (l : list A) i f x :
  nth_error l i = Some x -> nth_error (update l i f) i = Some (f x).
Proof.
  revert i. induction l as [| y l IH]; intros [| i] H; simpl in *;
    try discriminate.
  - congruence.
  - now apply IH.
Qed.

Lemma nth_error_snoc (l : list A) x :
  nth_error (l ++ [x]) (List.length l) = Some x.
Proof.
  rewrite nth_error_app2 by lia. now rewrite Nat.sub_diag.
Qed.

Lemma update_snoc (l : list A) x f :
  update (l ++ [x]) (List.length l) f = l ++ [f x].
Proof. induction l as [| y l IH]; simpl; [reflexivity | now rewrite IH]. Qed.

End Stores.

(** ** What each kind of step leaves alone *)

Lemma worker_step_flag w a ss w' a' ss' :
  worker_step w a ss = Some (w', a', ss') ->
  is_playing a' = is_playing a /\ toggle_btn a' = toggle_btn a.
Proof.
  destruct w; simpl; intros H.
  - destruct (cached_params a); injection H as <- <- <-; auto.
  - injection H as <- <- <-; auto.
  - destruct (stream a) as [h |]; [| injection H as <- <- <-; auto].
    destruct (option_map status (nth_error ss h)) as [[ | | | ] |];
      injection H as <- <- <-; auto.
  - destruct (keep_polling a frames_total); injection H as <- <- <-; auto.
  - injection H as <- <- <-; auto.
  - injection H as <- <- <-; auto.
  - discriminate.
  - discriminate.
Qed.

Lemma callback_frame base beat mode_ sr_ a frames out a' :
  callback base beat mode_ sr_ a frames = Rendered out a' ->
  is_playing a' = is_playing a /\ toggle_btn a' = toggle_btn a /\
  stream a' = stream a /\ thread_volume a' = thread_volume a /\
  t_sample a' = (t_sample a + Z.of_nat frames)%Z.
Proof.
  unfold callback, render_constant, render_alternating, emit.
  destruct (is_playing a) eqn:Hp; simpl; [| discriminate].
  destruct (String.eqb mode_ "constant").
  - destruct (sr_ =? 0)%Z; [discriminate |].
    intros E. injection E as _ <-. repeat split; simpl; auto.
  - destruct (String.eqb mode_ "alternating").
    + destruct (Np.last_elem _); [| discriminate].
      destruct (Np.last_elem _); [| discriminate].
      intros E. injection E as _ <-. repeat split; simpl; auto.
    + intros E. injection E as _ <-. repeat split; simpl; auto.
Qed.

Lemma update_toggle_btn_consistent a : btn_consistent (update_toggle_btn a).
Proof.
  unfold btn_consistent, update_toggle_btn.
  destruct (is_playing a) eqn:E; simpl; now rewrite E.
Qed.

Lemma start_consistent s :
  btn_consistent (self s) -> btn_consistent (self (start s)).
Proof.
  intros H. unfold start. destruct (is_playing (self s)); [exact H |].
  apply update_toggle_btn_consistent.
Qed.

Lemma stop_consistent s : btn_consistent (self (stop s)).
Proof.
  unfold stop. simpl.
  destruct (stream (self s)); apply update_toggle_btn_consistent.
Qed.

(** In every reachable state the toggle button shows "Stop" exactly when
    the running flag is set. *)
Lemma reachable_btn_consistent s : reachable s -> btn_consistent (self s).
Proof.
  induction 1 as [| act s s' Hr IH Hs]; [reflexivity |].
  destruct act; simpl in Hs.
  - injection Hs as <-. now apply start_consistent.
  - injection Hs as <-. apply stop_consistent.
  - injection Hs as <-. apply update_toggle_btn_consistent.
  - injection Hs as <-. exact IH.
  - destruct (Rle_dec 0 v); [| discriminate].
    destruct (Rle_dec v 1); [| discriminate].
    injection Hs as <-. exact IH.
  - injection Hs as <-. exact IH.
  - destruct (nth_error (workers s) i) as [w |]; [| discriminate].
    destruct (worker_step w (self s) (streams s)) as [[[w' a'] ss'] |] eqn:E;
      [| discriminate].
    injection Hs as <-. apply worker_step_flag in E as [E1 E2].
    unfold btn_consistent in *. simpl. now rewrite E1, E2.
  - destruct (nth_error (streams s) h) as [[[ | | | ] p] |]; try discriminate.
    destruct (callback_of p (self s) frames) as [out a' |] eqn:E.
    + injection Hs as <-. apply callback_frame in E as (E1 & E2 & _).
      unfold btn_consistent in *. simpl. now rewrite E1, E2.
    + injection Hs as <-. exact IH.
Qed.

Lemma run_reachable t s s' : reachable s -> run t s = Some s' -> reachable s'.
Proof.
  revert s. induction t as [| act t IH]; intros s Hr H; simpl in H.
  - now injection H as <-.
  - destruct (step act s) as [s1 |] eqn:E; [| discriminate].
    eapply IH; [| exact H]. eapply reachable_step; eauto.
Qed.

(** ** The control path: [start] and [stop] *)

Lemma start_while_playing s : is_playing (self s) = true -> start s = s.
Proof. intros H. unfold start. now rewrite H. Qed.

Lemma stop_idle_unregistered s :
  btn_consistent (self s) ->
  is_playing (self s) = false -> stream (self s) = None -> stop s = s.
Proof.
  destruct s as [a ws ss]. destruct a. unfold btn_consistent, stop. simpl.
  intros Hb Hp Hs. subst. reflexivity.
Qed.

Lemma stop_and_close_status ss h st :
  nth_error ss h = Some st ->
  option_map status (nth_error (stop_and_close ss h) h) = Some Closed.
Proof.
  intros H. unfold stop_and_close.
  erewrite nth_error_update_eq; [reflexivity |].
  apply nth_error_update_eq. exact H.
Qed.

(** C2, as amended.  [stop()] clears the running flag and forgets the
    registered stream; a stream object registered in [self.stream] is
    stopped and closed by [stop()] itself, so it is closed when [stop()]
    returns; with no stream registered the stream store is untouched.
    The worker threads are left exactly as they were: nothing is
    joined. *)
Theorem stop_closes_registered_stream s :
  is_playing (self (stop s)) = false /\
  stream (self (stop s)) = None /\
  workers (stop s) = workers s /\
  (forall h, stream (self s) = Some h -> (h < List.length (streams s))%nat ->
             status_of (stop s) h = Some Closed) /\
  (stream (self s) = None -> streams (stop s) = streams s).
Proof.
  unfold stop. simpl. destruct (stream (self s)) as [h |] eqn:Hs; simpl.
  - split; [reflexivity |]. split; [reflexivity |]. split; [reflexivity |].
    split; [| congruence].
    intros h' Hh' Hlt. assert (h' = h) as -> by congruence.
    destruct (nth_error (streams s) h) as [st |] eqn:E.
    + unfold status_of. simpl. eapply stop_and_close_status; eauto.
    + apply nth_error_None in E. lia.
  - split; [reflexivity |]. split; [exact Hs |]. split; [reflexivity |].
    split; [intros; congruence | reflexivity].
Qed.

Lemma stop_closes_registered_stream_witness :
  exists s,
    run (AStart :: worker_setup 0) init = Some s /\
    stream (self s) = Some 0%nat /\
    status_of s 0 = Some Active /\
    status_of (stop s) 0 = Some Closed.
Proof.
  eexists. split; [run_trace; reflexivity |].
  split; [reflexivity |]. split; [reflexivity |].
  refine (proj1 (proj2 (proj2 (proj2 (stop_closes_registered_stream _)))) 0%nat _ _).
  - reflexivity.
  - simpl. lia.
Defined.

(** C2, as stated, fails: when [stop()] returns right after [start()],
    the worker has not been joined (it is still before its first
    statement), and it goes on to open and start the output stream, which
    is therefore active after [stop()] has returned. *)
Lemma stop_does_not_join :
  exists s1 s2,
    run [AStart; AStop] init = Some s1 /\
    nth_error (workers s1) 0 = Some WSpawned /\
    run (worker_setup 0) s1 = Some s2 /\
    is_playing (self s2) = false /\
    status_of s2 0 = Some Active.
Proof.
  eexists _, _. split; [run_trace; reflexivity |].
  split; [reflexivity |].
  split; [run_trace; reflexivity |].
  split; reflexivity.
Qed.

(** ** The session worker *)

Lemma frames_total_reference : py_int (IZR 44100 * (1 / 100)) = 441%Z.
Proof.
  replace (IZR 44100 * (1 / 100)) with (IZR 441) by lra.
  apply py_int_IZR.
Qed.

(** C1, evaluated at the failing input: the application with
    [duration = 0.01], one press of Start, the worker brought to its
    loop, one buffer of 1024 frames (so the counter has passed 441), and
    the worker run to the end of [_play].  The worker has terminated and
    the stream is closed, but [is_playing] is still set: the button
    still reads "Stop", and a further [start()] does nothing. *)
Theorem duration_stop_leaves_flag_set :
  exists s,
    run (AStart :: worker_setup 0 ++ ACallback 0 1024 :: worker_teardown 0)
        (init_with_duration (1 / 100)) = Some s /\
    nth_error (workers s) 0 = Some WDone /\
    status_of s 0 = Some Closed /\
    t_sample (self s) = 0%Z /\
    is_playing (self s) = true /\
    toggle_btn (self s) = "Stop"%string /\
    start s = s.
Proof.
  eexists. split.
  - run_trace. rewrite frames_total_reference. run_trace. reflexivity.
  - repeat split; reflexivity.
Qed.

(** ** The fallback branch inside a session *)

Lemma set_t_sample_same a : set_t_sample a (t_sample a + 0) = a.
Proof. destruct a. unfold set_t_sample. simpl. now rewrite Z.add_0_r. Qed.

Lemma set_t_sample_twice a t t' :
  set_t_sample (set_t_sample a t) t' = set_t_sample a t'.
Proof. reflexivity. Qed.

Lemma callbacks_fallback p s h n k :
  p_mode p <> "constant"%string -> p_mode p <> "alternating"%string ->
  nth_error (streams s) h = Some (mkStream Active p) ->
  is_playing (self s) = true ->
  run (callbacks h n k) s
  = Some (mkState
            (set_t_sample (self s)
               (t_sample (self s) + Z.of_nat k * Z.of_nat n))
            (workers s) (streams s)).
Proof.
  intros Hc Ha. revert s. unfold callbacks.
  induction k as [| k IH]; intros s Hs Hp.
  - simpl. rewrite set_t_sample_same. now destruct s.
  - cbn [repeat run]. cbn [step]. rewrite Hs.
    unfold callback_of. rewrite callback_fallback by assumption.
    rewrite IH by assumption.
    cbn [self workers streams]. rewrite set_t_sample_twice.
    do 3 f_equal. simpl t_sample. lia.
Qed.

(** ** The single-buffer statements at concrete inputs *)

Lemma phase_continuous_witness :
  exists o1 a1 o2 a2,
    callback 200 10 "alternating" 44100 (set_is_playing init_app true) 2
    = Rendered o1 a1 /\
    callback 200 10 "alternating" 44100 a1 3 = Rendered o2 a2 /\
    callback 200 10 "alternating" 44100 (set_is_playing init_app true) (2 + 3)
    = Rendered (o1 ++ o2) a2.
Proof.
  apply (phase_continuous 200 10 "alternating" 44100
           (set_is_playing init_app true) 2 3).
  - right. reflexivity.
  - renderable_here.
  - renderable_here.
Defined.

Lemma unrecognized_mode_silence_witness :
  exists a',
    callback 200 10 "silent" 44100 (set_is_playing init_app true) 4
    = Rendered (repeat (0, 0) 4) a'.
Proof.
  apply (unrecognized_mode_silence 200 10 "silent" 44100
           (set_is_playing init_app true) 4);
    [discriminate | discriminate | reflexivity].
Defined.

(** * Further properties of the code *)

(** ** What a step can do to [self] *)

Lemma worker_step_self w a ss w' a' ss' :
  worker_step w a ss = Some (w', a', ss') ->
  a' = a \/ a' = set_t_sample (set_phases a 0 0) 0%Z \/
  a' = set_stream a (Some (List.length ss)) \/ a' = set_t_sample a 0%Z.
Proof.
  destruct w; simpl; intros H.
  - destruct (cached_params a); injection H as <- <- <-; auto.
  - injection H as <- <- <-; auto.
  - destruct (stream a) as [h |]; [| injection H as <- <- <-; auto].
    destruct (option_map status (nth_error ss h)) as [[ | | | ] |];
      injection H as <- <- <-; auto.
  - destruct (keep_polling a frames_total); injection H as <- <- <-; auto.
  - injection H as <- <- <-; auto.
  - injection H as <- <- <-; auto.
  - discriminate.
  - discriminate.
Qed.

Lemma callback_self base beat mode_ sr_ a frames out a' :
  callback base beat mode_ sr_ a frames = Rendered out a' ->
  exists pl pr,
    a' = set_t_sample (set_phases a pl pr) (t_sample a + Z.of_nat frames).
Proof.
  unfold callback, render_constant, render_alternating, emit.
  destruct (is_playing a) eqn:Hp; simpl; [| discriminate].
  destruct (String.eqb mode_ "constant").
  - destruct (sr_ =? 0)%Z; [discriminate |].
    intros E. injection E as _ <-. eexists _, _. reflexivity.
  - destruct (String.eqb mode_ "alternating").
    + destruct (Np.last_elem _); [| discriminate].
      destruct (Np.last_elem _); [| discriminate].
      intros E. injection E as _ <-. eexists _, _. reflexivity.
    + intros E. injection E as _ <-.
      exists (phase_left a), (phase_right a). now destruct a.
Qed.

(** The cases of a step, as far as [self] is concerned. *)
Lemma step_self act s s' :
  step act s = Some s' ->
  is_command act = true \/
  self s' = self s \/
  self s' = on_volume_release (self s) \/
  (exists v, 0 <= v <= 1 /\ self s' = set_volume (self s) v) \/
  (exists b t m, self s' = set_entries (self s) b t m) \/
  self s' = set_t_sample (set_phases (self s) 0 0) 0%Z \/
  (exists h, self s' = set_stream (self s) (Some h)) \/
  self s' = set_t_sample (self s) 0%Z \/
  (exists base beat mode_ sr_ frames out,
     callback base beat mode_ sr_ (self s) frames = Rendered out (self s')).
Proof.
  destruct act; simpl; intros H; auto.
  - injection H as <-. auto.
  - destruct (Rle_dec 0 v); [| discriminate].
    destruct (Rle_dec v 1); [| discriminate].
    injection H as <-. right; right; right; left. exists v. auto.
  - injection H as <-. right; right; right; right; left. eexists _, _, _.
    reflexivity.
  - destruct (nth_error (workers s) i) as [w |]; [| discriminate].
    destruct (worker_step w (self s) (streams s)) as [[[w' a'] ss'] |] eqn:E;
      [| discriminate].
    injection H as <-. simpl.
    apply worker_step_self in E as [-> | [-> | [-> | ->]]]; eauto 10.
  - destruct (nth_error (streams s) h) as [[[ | | | ] p] |]; try discriminate.
    destruct (callback_of p (self s) frames) as [out a' |] eqn:E.
    + injection H as <-. simpl. unfold callback_of in E.
      do 8 right. eexists _, _, _, _, _, _. exact E.
    + injection H as <-. auto.
Qed.

Lemma command_self act s s' :
  is_command act = true -> step act s = Some s' ->
  t_sample (self s') = t_sample (self s) /\
  phase_left (self s') = phase_left (self s) /\
  phase_right (self s') = phase_right (self s) /\
  volume (self s') = volume (self s) /\
  (thread_volume (self s') = thread_volume (self s) \/
   thread_volume (self s') = volume (self s)).
Proof.
  destruct s as [a ws ss]. destruct a.
  destruct act; try discriminate; intros _ H; injection H as <-;
    unfold toggle_play, start, stop, update_toggle_btn; simpl;
    destruct is_playing0; simpl; try destruct stream0; simpl; auto 10.
Qed.

(** ** Invariants of the reachable states *)

(** X1.  In every state the application can reach, the toggle button
    reads "Stop" exactly when the running flag is set and "Start" exactly
    when it is clear: every write of the flag ([start], [stop]) is
    followed by [update_toggle_btn], and neither the worker nor the audio
    callback writes the flag or the label. *)
Theorem toggle_button_tracks_flag s :
  reachable s ->
  (toggle_btn (self s) = "Stop"%string <-> is_playing (self s) = true) /\
  (toggle_btn (self s) = "Start"%string <-> is_playing (self s) = false).
Proof.
  intros Hr. apply reachable_btn_consistent in Hr.
  unfold btn_consistent in Hr. rewrite Hr.
  destruct (is_playing (self s)); repeat split; intros; congruence.
Qed.

Lemma toggle_button_tracks_flag_witness :
  (toggle_btn (self (start init)) = "Stop"%string
   <-> is_playing (self (start init)) = true) /\
  (toggle_btn (self (start init)) = "Start"%string
   <-> is_playing (self (start init)) = false).
Proof.
  apply (toggle_button_tracks_flag (start init)).
  apply (reachable_step AStart init); [apply reachable_init | reflexivity].
Defined.

Lemma step_keeps_flag act s s' :
  is_command act = false -> step act s = Some s' ->
  is_playing (self s') = is_playing (self s).
Proof.
  intros Hc H.
  destruct (step_self act s s' H)
    as [C | [E | [E | [(v & _ & E) | [(b & t & m & E) | [E | [(h & E)
        | [E | (base & beat & mode_ & sr_ & frames & out & E)]]]]]]]];
    try congruence; try (rewrite E; reflexivity).
  now apply callback_frame in E.
Qed.

(** X2.  Only the control thread's commands write the running flag: no
    sequence of worker steps, audio callbacks, slider moves, volume
    releases and entry edits changes [is_playing].  In particular a
    session that ends by itself never clears the flag. *)
Theorem only_commands_write_flag trace s s' :
  forallb (fun act => negb (is_command act)) trace = true ->
  run trace s = Some s' ->
  is_playing (self s') = is_playing (self s).
Proof.
  revert s. induction trace as [| act trace IH]; intros s Hall H; simpl in *.
  - now injection H as <-.
  - apply andb_prop in Hall as [Hc Hall].
    destruct (step act s) as [s1 |] eqn:E; [| discriminate].
    rewrite (IH s1 Hall H).
    apply (step_keeps_flag act); [now destruct (is_command act) | exact E].
Qed.

Lemma only_commands_write_flag_witness :
  exists s',
    run (worker_setup 0 ++ callbacks 0 1024 2 ++ [AVolumeRelease])
        (start init) = Some s' /\
    is_playing (self s') = is_playing (self (start init)).
Proof.
  eexists. split; [run_trace; reflexivity |].
  apply (only_commands_write_flag
           (worker_setup 0 ++ callbacks 0 1024 2 ++ [AVolumeRelease])
           (start init)).
  - reflexivity.
  - run_trace. reflexivity.
Defined.

(** X3.  The sample counter is never negative in a reachable state: it
    starts at 0, the callback adds the frame count, and [_play] resets
    it to 0. *)
Theorem counter_never_negative s :
  reachable s -> (0 <= t_sample (self s))%Z.
Proof.
  induction 1 as [| act s s' Hr IH Hs]; [simpl; lia |].
  destruct (is_command act) eqn:Hc.
  - destruct (command_self act s s' Hc Hs) as (E & _). lia.
  - destruct (step_self act s s' Hs)
      as [C | [E | [E | [(v & _ & E) | [(b & t & m & E) | [E | [(h & E)
          | [E | (base & beat & mode_ & sr_ & frames & out & E)]]]]]]]];
      try congruence; try (rewrite E; simpl; lia).
    apply callback_frame in E as (_ & _ & _ & _ & E). lia.
Qed.

Lemma counter_never_negative_witness :
  (0 <= t_sample (self (start init)))%Z.
Proof.
  apply (counter_never_negative (start init)).
  apply (reachable_step AStart init); [apply reachable_init | reflexivity].
Defined.

Lemma reachable_volumes_in_range s : reachable s -> volumes_in_range (self s).
Proof.
  induction 1 as [| act s s' Hr IH Hs].
  - unfold volumes_in_range. simpl. lra.
  - unfold volumes_in_range in *. destruct (is_command act) eqn:Hc.
    + destruct (command_self act s s' Hc Hs) as (_ & _ & _ & Ev & [Et | Et]);
        rewrite Ev, Et; tauto.
    + destruct (step_self act s s' Hs)
        as [C | [E | [E | [(v & Hv & E) | [(b & t & m & E) | [E | [(h & E)
            | [E | (base & beat & mode_ & sr_ & frames & out & E)]]]]]]]];
        try congruence; try (rewrite E; simpl; tauto).
      apply callback_self in E as (pl & pr & ->). simpl. tauto.
Qed.

(** X5.  In every reachable state the volume handed to the audio thread
    is a slider position in [[0, 1]], and therefore every sample the
    callback renders there, for any captured parameters and frame count,
    lies in [[-1, 1]]. *)
Theorem samples_in_unit_range s base beat mode_ sr_ frames out a' :
  reachable s ->
  callback base beat mode_ sr_ (self s) frames = Rendered out a' ->
  (0 <= thread_volume (self s) <= 1) /\ Forall (within_volume 1) out.
Proof.
  intros Hr E. destruct (reachable_volumes_in_range s Hr) as [_ Hv].
  split; [exact Hv |].
  apply callback_within_volume in E; [| tauto].
  eapply Forall_impl; [| exact E].
  intros lr [H1 H2]. unfold within_volume. lra.
Qed.

Lemma samples_in_unit_range_witness :
  exists out a',
    callback 200 10 "alternating" 44100 (self (start init)) 8
    = Rendered out a' /\
    (0 <= thread_volume (self (start init)) <= 1) /\
    Forall (within_volume 1) out.
Proof.
  destruct (callback_renders 200 10 "alternating" 44100 (self (start init)) 8)
    as (out & a' & E & _); [renderable_here |].
  exists out, a'. split; [exact E |].
  apply (samples_in_unit_range (start init) 200 10 "alternating" 44100 8 out a').
  - apply (reachable_step AStart init); [apply reachable_init | reflexivity].
  - exact E.
Defined.

(** ** The control path, continued *)



(** ** The stream store *)

Lemma nth_error_update {A : Type} (l : list A) i j f :
  nth_error (update l i f) j
  = if Nat.eqb i j then option_map f (nth_error l j) else nth_error l j.
Proof.
  revert i j. induction l as [| x l IH]; intros [| i] [| j]; simpl;
    try reflexivity.
  - now destruct (Nat.eqb _ _).
  - apply IH.
Qed.

Lemma evolves_refl st : evolves st st.
Proof. split; auto. Qed.

Lemma evolves_trans st1 st2 st3 :
  evolves st1 st2 -> evolves st2 st3 -> evolves st1 st3.
Proof. intros [C1 S1] [C2 S2]. split; [congruence | auto]. Qed.

Lemma evolves_stop st : evolves st (stream_stop st).
Proof.
  unfold stream_stop. destruct st as [[ | | | ] p]; split; simpl; auto;
    discriminate.
Qed.

Lemma evolves_close st : evolves st (stream_close st).
Proof. split; reflexivity. Qed.

Lemma update_evolves ss h f j st :
  (forall x, nth_error ss h = Some x -> evolves x (f x)) ->
  nth_error ss j = Some st ->
  exists st', nth_error (update ss h f) j = Some st' /\ evolves st st'.
Proof.
  intros Hf Hj. rewrite nth_error_update.
  destruct (Nat.eqb_spec h j) as [-> | _].
  - rewrite Hj. simpl. eexists. split; [reflexivity | now apply Hf].
  - exists st. split; [exact Hj | apply evolves_refl].
Qed.

Lemma stop_and_close_evolves ss h j st :
  nth_error ss j = Some st ->
  exists st', nth_error (stop_and_close ss h) j = Some st' /\ evolves st st'.
Proof.
  intros Hj. unfold stop_and_close.
  destruct (update_evolves ss h stream_stop j st) as (st1 & E1 & V1); auto.
  { intros; apply evolves_stop. }
  destruct (update_evolves (update ss h stream_stop) h stream_close j st1)
    as (st2 & E2 & V2); auto.
  { intros; apply evolves_close. }
  exists st2. split; [exact E2 | eapply evolves_trans; eauto].
Qed.

Lemma worker_step_evolves w a ss w' a' ss' j st :
  worker_step w a ss = Some (w', a', ss') ->
  nth_error ss j = Some st ->
  exists st', nth_error ss' j = Some st' /\ evolves st st'.
Proof.
  intros H Hj.
  assert (Hsame : exists st', nth_error ss j = Some st' /\ evolves st st')
    by (exists st; split; [exact Hj | apply evolves_refl]).
  destruct w; simpl in H.
  - destruct (cached_params a); injection H as <- <- <-; exact Hsame.
  - injection H as <- <- <-. exists st. split; [| apply evolves_refl].
    rewrite nth_error_app1; [exact Hj |].
    apply nth_error_Some. congruence.
  - destruct (stream a) as [h |]; [| injection H as <- <- <-; exact Hsame].
    destruct (option_map status (nth_error ss h)) as [[ | | | ] |] eqn:Eh;
      injection H as <- <- <-; try exact Hsame.
    + apply update_evolves; [| exact Hj].
      intros x Hx. rewrite Hx in Eh. simpl in Eh.
      split; [reflexivity | congruence].
    + apply update_evolves; [| exact Hj].
      intros x Hx. rewrite Hx in Eh. simpl in Eh.
      split; [reflexivity | congruence].
  - destruct (keep_polling a frames_total); injection H as <- <- <-;
      exact Hsame.
  - injection H as <- <- <-. now apply stop_and_close_evolves.
  - injection H as <- <- <-. exact Hsame.
  - discriminate.
  - discriminate.
Qed.

Lemma step_evolves act s s' j st :
  step act s = Some s' ->
  nth_error (streams s) j = Some st ->
  exists st', nth_error (streams s') j = Some st' /\ evolves st st'.
Proof.
  intros H Hj.
  assert (Hsame : exists st', nth_error (streams s) j = Some st'
                              /\ evolves st st')
    by (exists st; split; [exact Hj | apply evolves_refl]).
  destruct act; simpl in H.
  - injection H as <-. unfold start.
    destruct (is_playing (self s)); exact Hsame.
  - injection H as <-. unfold stop.
    destruct (stream (set_is_playing (self s) false)); simpl;
      [now apply stop_and_close_evolves | exact Hsame].
  - injection H as <-. unfold toggle_play. simpl.
    destruct (is_playing (self s)).
    + unfold stop.
      destruct (stream (set_is_playing (self s) false)); simpl;
        [now apply stop_and_close_evolves | exact Hsame].
    + unfold start. destruct (is_playing (self s)); exact Hsame.
  - injection H as <-. exact Hsame.
  - destruct (Rle_dec 0 v); [| discriminate].
    destruct (Rle_dec v 1); [| discriminate].
    injection H as <-. exact Hsame.
  - injection H as <-. exact Hsame.
  - destruct (nth_error (workers s) i) as [w |]; [| discriminate].
    destruct (worker_step w (self s) (streams s)) as [[[w' a'] ss'] |] eqn:E;
      [| discriminate].
    injection H as <-. simpl. eapply worker_step_evolves; eauto.
  - destruct (nth_error (streams s) h) as [[[ | | | ] p] |]; try discriminate.
    destruct (callback_of p (self s) frames) as [out a' |].
    + injection H as <-. exact Hsame.
    + injection H as <-. simpl. apply update_evolves; [| exact Hj].
      intros; apply evolves_stop.
Qed.

Lemma run_evolves trace s s' j st :
  run trace s = Some s' ->
  nth_error (streams s) j = Some st ->
  exists st', nth_error (streams s') j = Some st' /\ evolves st st'.
Proof.
  revert s st. induction trace as [| act trace IH]; intros s st H Hj;
    simpl in H.
  - injection H as <-. exists st. split; [exact Hj | apply evolves_refl].
  - destruct (step act s) as [s1 |] eqn:E; [| discriminate].
    destruct (step_evolves act s s1 j st E Hj) as (st1 & E1 & V1).
    destruct (IH s1 st1 H E1) as (st2 & E2 & V2).
    exists st2. split; [exact E2 | eapply evolves_trans; eauto].
Qed.

(** X8.  A stream keeps, whatever happens afterwards (entry edits,
    slider moves, further starts and stops, other sessions), the base
    frequency, beat frequency, mode and sample rate that its callback
    closed over when [_play] created it: the parameters of a session are
    fixed for its lifetime. *)
Theorem stream_parameters_fixed trace s s' h st :
  run trace s = Some s' ->
  nth_error (streams s) h = Some st ->
  exists st', nth_error (streams s') h = Some st' /\ closure st' = closure st.
Proof.
  intros H Hh. destruct (run_evolves trace s s' h st H Hh) as (st' & E & V).
  exists st'. split; [exact E | apply V].
Qed.

Lemma stream_parameters_fixed_witness :
  exists s',
    run [AEntries 440 4 "alternating"; ACallback 0 1024; AStop; AStart]
        (mkState
           (mkApp true (Some 0%nat) (Some 0%nat) 44100%Z None (5 / 10)
              200 10 "constant"
              (Some (mkParams 200 10 "constant" 44100 None))
              (5 / 10) 0 0 0%Z "Stop")
           [WPolling None 0]
           [mkStream Active (mkParams 200 10 "constant" 44100 None)])
    = Some s' /\
    exists st',
      nth_error (streams s') 0 = Some st' /\
      closure st'
      = closure (mkStream Active (mkParams 200 10 "constant" 44100 None)).
Proof.
  eexists. split; [run_trace; reflexivity |].
  apply (stream_parameters_fixed
           [AEntries 440 4 "alternating"; ACallback 0 1024; AStop; AStart]
           (mkState
              (mkApp true (Some 0%nat) (Some 0%nat) 44100%Z None (5 / 10)
                 200 10 "constant"
                 (Some (mkParams 200 10 "constant" 44100 None))
                 (5 / 10) 0 0 0%Z "Stop")
              [WPolling None 0]
              [mkStream Active (mkParams 200 10 "constant" 44100 None)])
           _ 0 (mkStream Active (mkParams 200 10 "constant" 44100 None))).
  - run_trace. reflexivity.
  - reflexivity.
Defined.

(** X9.  Once a stream has been closed (by [stop()] or by the worker
    leaving its [with] block) it stays closed on every schedule, and the
    device never invokes its callback again: nothing in the code reopens
    or restarts a stream object, each session creates its own. *)
Theorem closed_stream_never_renders trace s s' h frames :
  status_of s h = Some Closed ->
  run trace s = Some s' ->
  status_of s' h = Some Closed /\ step (ACallback h frames) s' = None.
Proof.
  unfold status_of. intros Hc H.
  destruct (nth_error (streams s) h) as [st |] eqn:Hh; [| discriminate].
  destruct (run_evolves trace s s' h st H Hh) as (st' & E & _ & V).
  simpl in Hc. assert (Hs : status st' = Closed) by (apply V; congruence).
  rewrite E. simpl. split; [congruence |].
  rewrite E. destruct st' as [stt p]. simpl in Hs. now rewrite Hs.
Qed.

Lemma closed_stream_never_renders_witness :
  exists s',
    run [AStart; AWorker 1; AWorker 1; AWorker 0]
        (stop (mkState
                 (mkApp true (Some 0%nat) (Some 0%nat) 44100%Z None (5 / 10)
                    200 10 "constant"
                    (Some (mkParams 200 10 "constant" 44100 None))
                    (5 / 10) 0 0 0%Z "Stop")
                 [WPolling None 0]
                 [mkStream Active (mkParams 200 10 "constant" 44100 None)]))
    = Some s' /\
    status_of s' 0 = Some Closed /\ step (ACallback 0 1024) s' = None.
Proof.
  eexists. split; [run_trace; reflexivity |].
  apply (closed_stream_never_renders
           [AStart; AWorker 1; AWorker 1; AWorker 0]
           (stop (mkState
                    (mkApp true (Some 0%nat) (Some 0%nat) 44100%Z None (5 / 10)
                       200 10 "constant"
                       (Some (mkParams 200 10 "constant" 44100 None))
                       (5 / 10) 0 0 0%Z "Stop")
                    [WPolling None 0]
                    [mkStream Active (mkParams 200 10 "constant" 44100 None)]))
           _ 0 1024).
  - reflexivity.
  - run_trace. reflexivity.
Defined.

(** X10.  The audio callback performs no teardown: an invocation,
    whether it renders or raises, leaves the worker threads, the running
    flag and [self.stream] as they were, creates no stream and closes
    none.  (A raise only halts the invoking stream.) *)
Theorem callback_never_tears_down h frames s s' :
  step (ACallback h frames) s = Some s' ->
  workers s' = workers s /\
  is_playing (self s') = is_playing (self s) /\
  stream (self s') = stream (self s) /\
  List.length (streams s') = List.length (streams s) /\
  (forall j, status_of s' j = Some Closed -> status_of s j = Some Closed).
Proof.
  simpl.
  destruct (nth_error (streams s) h) as [[[ | | | ] p] |] eqn:Hh;
    try discriminate.
  destruct (callback_of p (self s) frames) as [out a' |] eqn:E;
    intros H; injection H as <-; simpl.
  - apply callback_frame in E as (E1 & _ & E2 & _). auto.
  - repeat split; auto using update_length.
    intros j. unfold status_of. simpl. rewrite nth_error_update.
    destruct (Nat.eqb_spec h j) as [<- | _]; [| auto].
    rewrite Hh. simpl. discriminate.
Qed.

Lemma callback_never_tears_down_witness :
  exists s',
    step (ACallback 0 1024)
         (mkState
            (mkApp false None (Some 0%nat) 44100%Z None (5 / 10)
               200 10 "constant"
               (Some (mkParams 200 10 "constant" 44100 None))
               (5 / 10) 0 0 0%Z "Start")
            [WPolling None 0]
            [mkStream Active (mkParams 200 10 "constant" 44100 None)])
    = Some s' /\
    workers s' = [WPolling None 0] /\
    is_playing (self s') = false /\
    stream (self s') = None /\
    List.length (streams s') = 1%nat /\
    (forall j, status_of s' j = Some Closed ->
               status_of
                 (mkState
                    (mkApp false None (Some 0%nat) 44100%Z None (5 / 10)
                       200 10 "constant"
                       (Some (mkParams 200 10 "constant" 44100 None))
                       (5 / 10) 0 0 0%Z "Start")
                    [WPolling None 0]
                    [mkStream Active (mkParams 200 10 "constant" 44100 None)])
                 j = Some Closed).
Proof.
  eexists. split; [run_trace; reflexivity |].
  apply (callback_never_tears_down 0 1024
           (mkState
              (mkApp false None (Some 0%nat) 44100%Z None (5 / 10)
                 200 10 "constant"
                 (Some (mkParams 200 10 "constant" 44100 None))
                 (5 / 10) 0 0 0%Z "Start")
              [WPolling None 0]
              [mkStream Active (mkParams 200 10 "constant" 44100 None)])).
  run_trace. reflexivity.
Defined.

Lemma stop_effect s :
  stream (self (stop s)) = None /\
  workers (stop s) = workers s /\
  t_sample (self (stop s)) = t_sample (self s) /\
  (forall h st, stream (self s) = Some h ->
                nth_error (streams s) h = Some st ->
                status_of (stop s) h = Some Closed).
Proof.
  unfold stop, status_of. simpl.
  destruct (stream (self s)) as [h |] eqn:Hs; simpl.
  - repeat split; try reflexivity.
    intros h' st Hh' Hst. assert (h' = h) as -> by congruence.
    eapply stop_and_close_status; eauto.
  - repeat split; try reflexivity; try exact Hs.
    intros; congruence.
Qed.

(** X11.  A [stop()] that arrives after the worker has created its
    stream (line 140) but before it has entered [with self.stream]
    (line 143) closes that stream and sets [self.stream] to [None]; the
    worker then finds [None] at line 143 and ends with an exception,
    without starting any stream and without executing line 151. *)
Theorem stop_before_with_crashes_worker s i ft h :
  nth_error (workers s) i = Some (WEntering ft) ->
  stream (self s) = Some h ->
  (h < List.length (streams s))%nat ->
  exists s',
    run [AStop; AWorker i] s = Some s' /\
    nth_error (workers s') i = Some WCrashed /\
    status_of s' h = Some Closed /\
    stream (self s') = None /\
    t_sample (self s') = t_sample (self s).
Proof.
  intros Hw Hs Hlt.
  destruct (nth_error (streams s) h) as [st |] eqn:Hh;
    [| apply nth_error_None in Hh; lia].
  destruct (stop_effect s) as (En & Ew & Et & Ec).
  cbn [run step]. rewrite Ew, Hw. cbn [worker_step]. rewrite En.
  eexists. split; [reflexivity |].
  cbn [workers self streams].
  split; [exact (nth_error_update_eq _ _ (fun _ => WCrashed) _ Hw) |].
  split; [exact (Ec h st Hs Hh) |].
  split; [exact En | exact Et].
Qed.

Lemma stop_before_with_crashes_worker_witness :
  exists s',
    run [AStop; AWorker 0]
        (mkState
           (mkApp true (Some 0%nat) (Some 0%nat) 44100%Z None (5 / 10)
              200 10 "constant"
              (Some (mkParams 200 10 "constant" 44100 None))
              (5 / 10) 0 0 0%Z "Stop")
           [WEntering None]
           [mkStream Opened (mkParams 200 10 "constant" 44100 None)])
    = Some s' /\
    nth_error (workers s') 0 = Some WCrashed /\
    status_of s' 0 = Some Closed /\
    stream (self s') = None /\
    t_sample (self s') = 0%Z.
Proof.
  apply (stop_before_with_crashes_worker
           (mkState
              (mkApp true (Some 0%nat) (Some 0%nat) 44100%Z None (5 / 10)
                 200 10 "constant"
                 (Some (mkParams 200 10 "constant" 44100 None))
                 (5 / 10) 0 0 0%Z "Stop")
              [WEntering None]
              [mkStream Opened (mkParams 200 10 "constant" 44100 None)])
           0 None 0).
  - reflexivity.
  - reflexivity.
  - simpl. lia.
Defined.

(** ** Rendering across many buffers *)

Lemma recognized_continuous base beat mode_ sr_ a n m :
  recognized mode_ -> is_playing a = true -> sr_ <> 0%Z ->
  (mode_ = "alternating"%string -> (0 < n)%nat /\ (0 < m)%nat) ->
  exists o1 a1 o2 a2,
    callback base beat mode_ sr_ a n = Rendered o1 a1 /\
    callback base beat mode_ sr_ a1 m = Rendered o2 a2 /\
    callback base beat mode_ sr_ a (n + m) = Rendered (o1 ++ o2) a2.
Proof.
  intros [Hm | Hm] Hp Hs Hpos.
  - now apply constant_continuous.
  - destruct (Hpos Hm). now apply alternating_continuous.
Qed.

Lemma render_buffers_joined base beat mode_ sr_ ns : forall a,
  recognized mode_ -> is_playing a = true -> sr_ <> 0%Z ->
  (mode_ = "alternating"%string -> Forall (fun n => (0 < n)%nat) ns) ->
  ns <> [] ->
  exists out a',
    render_buffers base beat mode_ sr_ a ns = Some (out, a') /\
    callback base beat mode_ sr_ a (list_sum ns) = Rendered out a'.
Proof.
  induction ns as [| n ns IH]; intros a Hm Hp Hs Hpos Hne; [congruence |].
  destruct ns as [| m rest].
  - destruct (callback_renders base beat mode_ sr_ a n)
      as (out & a' & E & _).
    { repeat split; auto. intros Ha. specialize (Hpos Ha).
      now inversion Hpos. }
    exists out, a'. simpl. rewrite Nat.add_0_r, E, app_nil_r. auto.
  - assert (Hpos' : mode_ = "alternating"%string ->
                    Forall (fun n => (0 < n)%nat) (m :: rest)).
    { intros Ha. specialize (Hpos Ha). now inversion Hpos. }
    destruct (recognized_continuous base beat mode_ sr_ a n
                (list_sum (m :: rest)) Hm Hp Hs)
      as (o1 & a1 & o2 & a2 & E1 & E2 & E12).
    { intros Ha. specialize (Hpos Ha). inversion Hpos as [| ? ? Hn Hrest].
      subst. inversion Hrest; subst. simpl. lia. }
    assert (Hp1 : is_playing a1 = true).
    { apply callback_frame in E1 as (E1 & _). congruence. }
    destruct (IH a1 Hm Hp1 Hs Hpos' ltac:(discriminate))
      as (out' & a' & R & E').
    rewrite E2 in E'. injection E' as <- <-.
    exists (o1 ++ o2), a2. split; [| exact E12].
    change (render_buffers base beat mode_ sr_ a (n :: m :: rest))
      with (match callback base beat mode_ sr_ a n with
            | Rendered out a' =>
                match render_buffers base beat mode_ sr_ a' (m :: rest) with
                | Some (outs, a'') => Some (out ++ outs, a'')
                | None => None
                end
            | Raised _ => None
            end).
    now rewrite E1, R.
Qed.

(** X12.  Phase continuity over any number of buffers: in the constant
    and in the alternating mode, rendering a non-empty sequence of
    buffers one after the other (of any sizes; at least one frame each in
    the alternating mode) produces exactly the samples, and leaves
    exactly the state, of one buffer holding all the frames. *)
Theorem buffers_join_seamlessly base beat mode_ sr_ a ns :
  recognized mode_ -> is_playing a = true -> sr_ <> 0%Z ->
  (mode_ = "alternating"%string -> Forall (fun n => (0 < n)%nat) ns) ->
  ns <> [] ->
  exists out a',
    render_buffers base beat mode_ sr_ a ns = Some (out, a') /\
    callback base beat mode_ sr_ a (list_sum ns) = Rendered out a'.
Proof. intros. now apply render_buffers_joined. Qed.

Lemma buffers_join_seamlessly_witness :
  exists out a',
    render_buffers 200 10 "alternating" 44100 (set_is_playing init_app true)
                   [3; 1; 2]%nat = Some (out, a') /\
    callback 200 10 "alternating" 44100 (set_is_playing init_app true)
             (list_sum [3; 1; 2]%nat) = Rendered out a'.
Proof.
  apply (buffers_join_seamlessly 200 10 "alternating" 44100
           (set_is_playing init_app true) [3; 1; 2]%nat).
  - right. reflexivity.
  - reflexivity.
  - discriminate.
  - intros _. repeat constructor.
  - discriminate.
Defined.

(** X13.  The sample counter counts the frames written: after any
    sequence of buffers rendered by one callback, in any mode, the
    counter has advanced by exactly the number of stereo frames that
    were output. *)
Theorem counter_counts_frames base beat mode_ sr_ ns : forall a out a',
  render_buffers base beat mode_ sr_ a ns = Some (out, a') ->
  List.length out = list_sum ns /\
  t_sample a' = (t_sample a + Z.of_nat (list_sum ns))%Z.
Proof.
  induction ns as [| n ns IH]; intros a out a' H; simpl in H.
  - injection H as <- <-. simpl. split; [reflexivity | lia].
  - destruct (callback base beat mode_ sr_ a n) as [o1 a1 |] eqn:E;
      [| discriminate].
    destruct (render_buffers base beat mode_ sr_ a1 ns) as [[o2 a2] |] eqn:R;
      [| discriminate].
    injection H as <- <-. destruct (IH a1 o2 a2 R) as [L T].
    pose proof (callback_frame _ _ _ _ _ _ _ _ E) as (Hp & _ & _ & _ & Ht).
    assert (L1 : List.length o1 = n).
    { unfold callback, render_constant, render_alternating, emit in E.
      destruct (is_playing a); simpl in E; [| discriminate].
      destruct (String.eqb mode_ "constant").
      - destruct (sr_ =? 0)%Z; [discriminate |].
        injection E as <- _.
        rewrite stack_scaled_length; now rewrite !length_map, arange_length.
      - destruct (String.eqb mode_ "alternating").
        + destruct (Np.last_elem _); [| discriminate].
          destruct (Np.last_elem _); [| discriminate].
          injection E as <- _. unfold alt_phase_left, alt_phase_right, Np.cumsum.
          rewrite stack_scaled_length;
            rewrite !length_map, !cumsum_from_length,
              ?alt_incs_left_length, ?alt_incs_right_length; lia.
        + injection E as <- _. rewrite stack_scaled_zeros.
          apply repeat_length. }
    rewrite length_app, L, L1. simpl list_sum. split; lia.
Qed.

Lemma counter_counts_frames_witness :
  exists out a',
    render_buffers 200 10 "alternating" 44100 (set_is_playing init_app true)
                   [3; 1; 2]%nat = Some (out, a') /\
    List.length out = list_sum [3; 1; 2]%nat /\
    t_sample a'
    = (t_sample (set_is_playing init_app true)
       + Z.of_nat (list_sum [3; 1; 2]%nat))%Z.
Proof.
  destruct (render_buffers_joined 200 10 "alternating" 44100 [3; 1; 2]%nat
              (set_is_playing init_app true))
    as (out & a' & R & _).
  - right. reflexivity.
  - reflexivity.
  - discriminate.
  - intros _. repeat constructor.
  - discriminate.
  - exists out, a'. split; [exact R |].
    apply (counter_counts_frames 200 10 "alternating" 44100 [3; 1; 2]%nat
             (set_is_playing init_app true) out a').
    exact R.
Defined.

(** X14.  In the constant mode the whole stream of a session is the pair
    of sampled sine waves: over any sequence of buffer sizes, the [j]-th
    frame output since the phases were [phase_left a] and
    [phase_right a] is
    [vol * sin (phase + 2 * PI * f / sr * j)] with
    [f = base - beat / 2] on the left and [f = base + beat / 2] on the
    right, wherever the buffer boundaries fall. *)
Theorem constant_session_waveform base beat sr_ a ns :
  is_playing a = true -> sr_ <> 0%Z ->
  exists out a',
    render_buffers base beat "constant" sr_ a ns = Some (out, a') /\
    List.length out = list_sum ns /\
    forall j, (j < list_sum ns)%nat ->
      nth_error out j
      = Some (sin (phase_left a
                   + 2 * PI * (base - beat / 2) / IZR sr_ * IZR (Z.of_nat j))
              * thread_volume a,
              sin (phase_right a
                   + 2 * PI * (base + beat / 2) / IZR sr_ * IZR (Z.of_nat j))
              * thread_volume a).
Proof.
  intros Hp Hs. destruct ns as [| n ns].
  - exists [], a. simpl. repeat split; auto. intros j Hj. lia.
  - destruct (render_buffers_joined base beat "constant" sr_ (n :: ns) a)
      as (out & a' & R & E); auto; try discriminate.
    { now left. }
    exists out, a'. split; [exact R |].
    rewrite callback_constant in E by auto.
    injection E as <- _. split.
    + rewrite stack_scaled_length; now rewrite !length_map, arange_length.
    + intros j Hj. apply stack_scaled_nth;
        rewrite nth_error_map, arange_nth by exact Hj; reflexivity.
Qed.

Lemma constant_session_waveform_witness :
  exists out a',
    render_buffers 200 10 "constant" 44100 (set_is_playing init_app true)
                   [1024; 0; 512]%nat = Some (out, a') /\
    List.length out = list_sum [1024; 0; 512]%nat /\
    forall j, (j < list_sum [1024; 0; 512]%nat)%nat ->
      nth_error out j
      = Some (sin (phase_left (set_is_playing init_app true)
                   + 2 * PI * (200 - 10 / 2) / IZR 44100 * IZR (Z.of_nat j))
              * thread_volume (set_is_playing init_app true),
              sin (phase_right (set_is_playing init_app true)
                   + 2 * PI * (200 + 10 / 2) / IZR 44100 * IZR (Z.of_nat j))
              * thread_volume (set_is_playing init_app true)).
Proof.
  apply (constant_session_waveform 200 10 44100
           (set_is_playing init_app true) [1024; 0; 512]%nat).
  - reflexivity.
  - discriminate.
Defined.

(** ** The alternating mode without beat *)

Lemma map_constant {A B : Type} (c : B) (l : list A) :
  map (fun _ => c) l = repeat c (List.length l).
Proof. induction l; simpl; congruence. Qed.

Lemma cumsum_from_repeat_nth c n : forall acc i,
  (i < n)%nat ->
  nth_error (Np.cumsum_from acc (repeat c n)) i
  = Some (acc + c * IZR (Z.of_nat (S i))).
Proof.
  induction n as [| n IH]; intros acc i Hi; [lia |].
  destruct i as [| i]; simpl repeat; simpl Np.cumsum_from; simpl nth_error.
  - f_equal. simpl. ring.
  - rewrite IH by lia. f_equal.
    rewrite (Nat2Z.inj_succ (S i)), succ_IZR. ring.
Qed.

Lemma alt_incs_zero_beat base sr_ t0 n :
  alt_incs_left base 0 sr_ t0 n = repeat (2 * PI * base / IZR sr_) n /\
  alt_incs_right base 0 sr_ t0 n = repeat (2 * PI * base / IZR sr_) n.
Proof.
  assert (Hc : map (fun _ : Z => 2 * PI * base / IZR sr_) (Np.arange n)
               = repeat (2 * PI * base / IZR sr_) n)
    by (now rewrite map_constant, arange_length).
  unfold alt_incs_left, alt_incs_right, alt_modulation.
  rewrite !map_map, <- Hc.
  split; apply map_ext; intros i; unfold Rdiv; ring.
Qed.

(** X15.  With a beat frequency of 0 the alternating mode degenerates:
    both channels run at the base frequency without modulation.  Frame
    [i] of a buffer carries [vol * sin (phase + 2 * PI * base / sr * (i + 1))]
    on each channel, one phase step ahead of the phase carried in (the
    running sum includes the frame's own increment). *)
Theorem alternating_zero_beat base sr_ a frames :
  is_playing a = true -> sr_ <> 0%Z -> (0 < frames)%nat ->
  exists out a',
    callback base 0 "alternating" sr_ a frames = Rendered out a' /\
    forall i, (i < frames)%nat ->
      nth_error out i
      = Some (sin (phase_left a
                   + 2 * PI * base / IZR sr_ * IZR (Z.of_nat (S i)))
              * thread_volume a,
              sin (phase_right a
                   + 2 * PI * base / IZR sr_ * IZR (Z.of_nat (S i)))
              * thread_volume a).
Proof.
  intros Hp Hs Hf.
  rewrite callback_alternating by auto.
  eexists _, _. split; [reflexivity |].
  intros i Hi.
  destruct (alt_incs_zero_beat base sr_ (t_sample a) frames) as [-> ->].
  unfold Np.cumsum.
  apply stack_scaled_nth;
    rewrite nth_error_map, cumsum_from_repeat_nth by exact Hi;
    simpl option_map; rewrite Rplus_0_l; reflexivity.
Qed.

Lemma alternating_zero_beat_witness :
  exists out a',
    callback 200 0 "alternating" 44100 (set_is_playing init_app true) 4
    = Rendered out a' /\
    forall i, (i < 4)%nat ->
      nth_error out i
      = Some (sin (phase_left (set_is_playing init_app true)
                   + 2 * PI * 200 / IZR 44100 * IZR (Z.of_nat (S i)))
              * thread_volume (set_is_playing init_app true),
              sin (phase_right (set_is_playing init_app true)
                   + 2 * PI * 200 / IZR 44100 * IZR (Z.of_nat (S i)))
              * thread_volume (set_is_playing init_app true)).
Proof.
  apply (alternating_zero_beat 200 44100 (set_is_playing init_app true) 4).
  - reflexivity.
  - discriminate.
  - lia.
Defined.

(** ** Edge cases *)

(** X16.  An empty buffer: with zero frames the alternating branch
    raises [IndexError] (it indexes the last element of an empty running
    sum) before it has written anything, and the stream that invoked it
    is halted with [self] unchanged, while the constant branch and the
    fallback branch render an empty buffer. *)
Theorem empty_buffer_behaviour base beat sr_ a :
  is_playing a = true -> sr_ <> 0%Z ->
  callback base beat "alternating" sr_ a 0 = Raised IndexError /\
  rendered_out (callback base beat "constant" sr_ a 0) = Some [] /\
  (forall mode_, ~ recognized mode_ ->
     rendered_out (callback base beat mode_ sr_ a 0) = Some []) /\
  (forall ws ss h dur,
     nth_error ss h
     = Some (mkStream Active (mkParams base beat "alternating" sr_ dur)) ->
     exists s',
       step (ACallback h 0) (mkState a ws ss) = Some s' /\
       self s' = a /\ status_of s' h = Some Stopped).
Proof.
  intros Hp Hs.
  assert (Ha : callback base beat "alternating" sr_ a 0 = Raised IndexError).
  { unfold callback, render_alternating. rewrite Hp. reflexivity. }
  split; [exact Ha |]. split.
  { rewrite callback_constant by auto. reflexivity. }
  split.
  { intros mode_ Hm. rewrite callback_fallback; auto.
    - intros E. apply Hm. now left.
    - intros E. apply Hm. now right. }
  intros ws ss h dur Hh. cbn [step streams self]. rewrite Hh.
  unfold callback_of. cbn [p_base p_beat p_mode p_sr]. rewrite Ha.
  eexists. split; [reflexivity |]. split; [reflexivity |].
  unfold status_of. cbn [streams].
  now rewrite (nth_error_update_eq _ _ stream_stop _ Hh).
Qed.

Lemma empty_buffer_behaviour_witness :
  callback 200 10 "alternating" 44100 (set_is_playing init_app true) 0
  = Raised IndexError /\
  rendered_out
    (callback 200 10 "constant" 44100 (set_is_playing init_app true) 0)
  = Some [] /\
  (forall mode_, ~ recognized mode_ ->
     rendered_out
       (callback 200 10 mode_ 44100 (set_is_playing init_app true) 0)
     = Some []) /\
  (forall ws ss h dur,
     nth_error ss h
     = Some (mkStream Active (mkParams 200 10 "alternating" 44100 dur)) ->
     exists s',
       step (ACallback h 0) (mkState (set_is_playing init_app true) ws ss)
       = Some s' /\
       self s' = set_is_playing init_app true /\
       status_of s' h = Some Stopped).
Proof.
  apply (empty_buffer_behaviour 200 10 44100 (set_is_playing init_app true)).
  - reflexivity.
  - discriminate.
Defined.

(** * Bounds under rounding *)

(** ** Powers of two and representable numbers *)

Lemma pow2_pos e : 0 < pow2 e.
Proof. apply powerRZ_lt. lra. Qed.

Lemma pow2_add a b : pow2 (a + b) = pow2 a * pow2 b.
Proof. apply powerRZ_add. lra. Qed.

Lemma pow2_IZR n : (0 <= n)%Z -> pow2 n = IZR (2 ^ n).
Proof.
  intros Hn. unfold pow2. rewrite <- (Z2Nat.id n) at 1 by exact Hn.
  rewrite <- pow_powerRZ, pow_IZR. now rewrite Z2Nat.id.
Qed.

Lemma pow2_neg n : pow2 (- n) = / pow2 n.
Proof. apply powerRZ_neg'. Qed.

Lemma pow2_le a b : (a <= b)%Z -> pow2 a <= pow2 b.
Proof.
  intros H. replace b with (a + (b - a))%Z by lia.
  rewrite pow2_add, (pow2_IZR (b - a)) by lia.
  assert (H1 : (1 <= 2 ^ (b - a))%Z) by (apply (Z.pow_le_mono_r 2 0); lia).
  apply IZR_le in H1. pose proof (pow2_pos a). nra.
Qed.

Lemma pow2_lt a b : (a < b)%Z -> pow2 a < pow2 b.
Proof.
  intros H. replace b with (a + (b - a))%Z by lia.
  rewrite pow2_add, (pow2_IZR (b - a)) by lia.
  assert (H1 : (2 <= 2 ^ (b - a))%Z) by (apply (Z.pow_le_mono_r 2 1); lia).
  apply IZR_le in H1. pose proof (pow2_pos a). nra.
Qed.

Lemma representable_intro prec emin emax m e :
  (Z.abs m < 2 ^ prec)%Z -> (emin <= e <= emax)%Z ->
  representable prec emin emax (IZR m * pow2 e).
Proof. intros Hm He. exists m, e. auto. Qed.

Lemma representable_opp prec emin emax x :
  representable prec emin emax x -> representable prec emin emax (- x).
Proof.
  intros (m & e & Hm & He & ->). exists (- m)%Z, e.
  rewrite Z.abs_opp, opp_IZR. repeat split; auto; try lia. ring.
Qed.

Lemma representable_grid prec emin emax y e :
  (0 <= prec)%Z -> representable prec emin emax y -> pow2 e <= Rabs y ->
  exists j : Z, y = IZR j * pow2 (e - prec + 1).
Proof.
  intros Hp (m & ey & Hm & _ & ->) Hy.
  destruct (Z_le_gt_dec (e - prec + 1) ey) as [Hge | Hlt].
  - exists (m * 2 ^ (ey - (e - prec + 1)))%Z.
    rewrite mult_IZR, <- pow2_IZR by lia.
    rewrite Rmult_assoc, <- pow2_add. f_equal. f_equal. lia.
  - exfalso.
    rewrite Rabs_mult, <- abs_IZR, (Rabs_pos_eq (pow2 ey)) in Hy
      by (left; apply pow2_pos).
    apply IZR_lt in Hm. rewrite <- pow2_IZR in Hm by exact Hp.
    assert (H1 : pow2 ey <= pow2 (e - prec)) by (apply pow2_le; lia).
    assert (H2 : pow2 e = pow2 prec * pow2 (e - prec))
      by (rewrite <- pow2_add; f_equal; lia).
    pose proof (pow2_pos ey). pose proof (pow2_pos (e - prec)).
    assert (H3 : 0 <= IZR (Z.abs m)) by (apply IZR_le; lia).
    nra.
Qed.

(** ** Rounding to nearest *)

Lemma nearest_between F lo hi t z :
  F lo -> F hi -> lo <= t <= hi -> nearest F t z -> lo <= z <= hi.
Proof.
  intros Hlo Hhi Ht [_ H]. pose proof (H lo Hlo). pose proof (H hi Hhi).
  split_Rabs; lra.
Qed.

Lemma nearest_refl (F : R -> Prop) t : F t -> nearest F t t.
Proof.
  intros Ft. split; [exact Ft |]. intros y _.
  replace (t - t) with 0 by ring. rewrite Rabs_R0. apply Rabs_pos.
Qed.

Lemma nearest_exact (F : R -> Prop) t z : F t -> nearest F t z -> z = t.
Proof.
  intros Ft [_ H]. specialize (H t Ft).
  replace (t - t) with 0 in H by ring. rewrite Rabs_R0 in H.
  split_Rabs; lra.
Qed.

Lemma nearest_opp (F : R -> Prop) t z :
  (forall x, F x -> F (- x)) -> nearest F t z -> nearest F (- t) (- z).
Proof.
  intros Hopp [Fz H]. split; [now apply Hopp |].
  intros y Fy. specialize (H (- y) (Hopp y Fy)). split_Rabs; lra.
Qed.

(** ** Every operation has a result *)

Lemma nearest_of_neighbours (F : R -> Prop) lo hi t :
  F lo -> F hi -> lo <= t <= hi ->
  (forall y, F y -> y <= lo \/ hi <= y) ->
  exists z, nearest F t z.
Proof.
  intros Flo Fhi Ht Hgap.
  destruct (Rle_dec (t - lo) (hi - t)) as [Hc | Hc].
  - exists lo. split; [exact Flo |]. intros y Fy.
    destruct (Hgap y Fy); split_Rabs; lra.
  - exists hi. split; [exact Fhi |]. intros y Fy.
    destruct (Hgap y Fy); split_Rabs; lra.
Qed.

(** Between two neighbouring multiples of [2 ^ g]. *)
Lemma grid_neighbours g t :
  exists k : Z, IZR k * pow2 g <= t < IZR (k + 1) * pow2 g.
Proof.
  pose proof (pow2_pos g) as Hu.
  exists (Int_part (t / pow2 g)).
  destruct (base_Int_part (t / pow2 g)) as [H1 H2].
  assert (Hq : t = t / pow2 g * pow2 g) by (field; lra).
  rewrite plus_IZR. split; nra.
Qed.

Lemma grid_gap g k j :
  IZR k * pow2 g < IZR j * pow2 g < IZR (k + 1) * pow2 g -> False.
Proof.
  pose proof (pow2_pos g) as Hu. intros [H1 H2].
  assert (A : IZR k < IZR j) by nra.
  assert (B : IZR j < IZR (k + 1)) by nra.
  apply lt_IZR in A, B. lia.
Qed.

Lemma pow2_le_inv a b : pow2 a <= pow2 b -> (a <= b)%Z.
Proof.
  intros H. destruct (Z_le_gt_dec a b) as [| Hgt]; [assumption |].
  assert (pow2 b < pow2 a) by (apply pow2_lt; lia). lra.
Qed.

Lemma pow2_lt_inv a b : pow2 a < pow2 b -> (a < b)%Z.
Proof.
  intros H. destruct (Z_lt_ge_dec a b) as [| Hge]; [assumption |].
  assert (pow2 b <= pow2 a) by (apply pow2_le; lia). lra.
Qed.

Section Format.

Variables prec emin emax : Z.
Hypothesis Hprec : (1 <= prec)%Z.
Hypothesis Hexp : (emin <= emax)%Z.

Lemma representable_multiple k e :
  (0 <= k <= 2 ^ prec)%Z -> (emin <= e)%Z -> (e + 1 <= emax)%Z ->
  (representable prec emin emax) (IZR k * pow2 e).
Proof.
  intros Hk He1 He2. destruct (Z.eq_dec k (2 ^ prec)) as [-> | Hne].
  - replace (IZR (2 ^ prec) * pow2 e) with (IZR (2 ^ (prec - 1)) * pow2 (e + 1)).
    + apply representable_intro; [| lia].
      rewrite Z.abs_eq by (apply Z.pow_nonneg; lia).
      apply Z.pow_lt_mono_r; lia.
    + rewrite <- !pow2_IZR, <- !pow2_add by lia. f_equal. lia.
  - apply representable_intro; [| lia]. rewrite Z.abs_eq by lia. lia.
Qed.

Lemma nearest_exists_binade e t :
  (emin <= e - prec + 1)%Z -> (e - prec + 2 <= emax)%Z ->
  pow2 e <= t <= pow2 (e + 1) ->
  exists z, nearest (representable prec emin emax) t z.
Proof.
  intros He1 He2 [Hlo Hhi].
  pose proof (pow2_pos (e - prec + 1)) as Hu.
  assert (E1 : pow2 e = IZR (2 ^ (prec - 1)) * pow2 (e - prec + 1)).
  { rewrite <- pow2_IZR, <- pow2_add by lia. f_equal. lia. }
  assert (E2 : pow2 (e + 1) = IZR (2 ^ prec) * pow2 (e - prec + 1)).
  { rewrite <- pow2_IZR, <- pow2_add by lia. f_equal. lia. }
  destruct (grid_neighbours (e - prec + 1) t) as (k & Hk1 & Hk2).
  assert (Hk3 : (2 ^ (prec - 1) <= k)%Z).
  { apply Z.lt_succ_r. apply lt_IZR. unfold Z.succ. nra. }
  assert (Hk4 : (k <= 2 ^ prec)%Z) by (apply le_IZR; nra).
  assert (Hp0 : (0 < 2 ^ (prec - 1))%Z) by (apply Z.pow_pos_nonneg; lia).
  destruct (Z.eq_dec k (2 ^ prec)) as [Hk | Hk].
  - exists t. apply nearest_refl.
    replace t with (IZR k * pow2 (e - prec + 1)).
    + apply representable_multiple; lia.
    + rewrite Hk in *. lra.
  - apply (nearest_of_neighbours (representable prec emin emax) (IZR k * pow2 (e - prec + 1))
             (IZR (k + 1) * pow2 (e - prec + 1))).
    + apply representable_multiple; lia.
    + apply representable_multiple; lia.
    + lra.
    + intros y Fy.
      destruct (Rle_dec y (IZR k * pow2 (e - prec + 1))) as [| Hn];
        [now left |].
      destruct (Rle_dec (IZR (k + 1) * pow2 (e - prec + 1)) y) as [| Hn'];
        [now right |]. exfalso.
      assert (Hy : pow2 e <= Rabs y).
      { apply IZR_le in Hk3. pose proof (pow2_pos e).
        rewrite Rabs_pos_eq; nra. }
      destruct (representable_grid prec emin emax y e ltac:(lia) Fy Hy)
        as (j & Ej).
      apply (grid_gap (e - prec + 1) k j). rewrite <- Ej. lra.
Qed.

Lemma nearest_exists_subnormal t :
  (emin + 1 <= emax)%Z ->
  0 <= t <= pow2 (emin + prec - 1) ->
  exists z, nearest (representable prec emin emax) t z.
Proof.
  intros He [Hlo Hhi].
  pose proof (pow2_pos emin) as Hu.
  assert (E1 : pow2 (emin + prec - 1) = IZR (2 ^ (prec - 1)) * pow2 emin).
  { rewrite <- pow2_IZR, <- pow2_add by lia. f_equal. lia. }
  destruct (grid_neighbours emin t) as (k & Hk1 & Hk2).
  assert (Hk3 : (0 <= k)%Z).
  { apply Z.lt_succ_r. apply lt_IZR. unfold Z.succ. nra. }
  assert (Hk4 : (k <= 2 ^ (prec - 1))%Z) by (apply le_IZR; nra).
  assert (Hp : (2 ^ (prec - 1) < 2 ^ prec)%Z)
    by (apply Z.pow_lt_mono_r; lia).
  apply (nearest_of_neighbours (representable prec emin emax) (IZR k * pow2 emin)
           (IZR (k + 1) * pow2 emin)).
  - apply representable_multiple; lia.
  - apply representable_multiple; lia.
  - lra.
  - intros y (m & ey & Hm & Hey & ->).
    destruct (Rle_dec (IZR m * pow2 ey) (IZR k * pow2 emin)) as [| Hn];
      [now left |].
    destruct (Rle_dec (IZR (k + 1) * pow2 emin) (IZR m * pow2 ey)) as [| Hn'];
      [now right |]. exfalso.
    apply (grid_gap emin k (m * 2 ^ (ey - emin))).
    rewrite mult_IZR, <- pow2_IZR by lia.
    rewrite Rmult_assoc, <- pow2_add.
    replace (ey - emin + emin)%Z with ey by lia. lra.
Qed.

Lemma find_binade t n : forall a,
  pow2 a <= t <= pow2 (a + Z.of_nat (S n)) ->
  exists e, (a <= e <= a + Z.of_nat n)%Z /\ pow2 e <= t <= pow2 (e + 1).
Proof.
  induction n as [| n IH]; intros a [H1 H2].
  - exists a. split; [lia |]. now replace (a + 1)%Z with (a + Z.of_nat 1)%Z.
  - destruct (Rle_dec t (pow2 (a + 1))) as [Hle | Hgt].
    + exists a. split; [lia | lra].
    + destruct (IH (a + 1)%Z) as (e & He & Ht).
      * split; [lra |].
        now replace (a + 1 + Z.of_nat (S n))%Z with (a + Z.of_nat (S (S n)))%Z
          by lia.
      * exists e. split; [lia | exact Ht].
Qed.

Lemma nearest_exists_nonneg t :
  (emin + 1 <= emax)%Z ->
  0 <= t <= pow2 (emax + prec - 1) ->
  exists z, nearest (representable prec emin emax) t z.
Proof.
  intros He [Hlo Hhi].
  destruct (Rle_dec t (pow2 (emin + prec - 1))) as [Hs | Hn].
  - apply nearest_exists_subnormal; [exact He | lra].
  - destruct (find_binade t (Z.to_nat (emax - emin - 1)) (emin + prec - 1))
      as (e & Hee & Ht).
    + split; [lra |].
      replace (emin + prec - 1 + Z.of_nat (S (Z.to_nat (emax - emin - 1))))%Z
        with (emax + prec - 1)%Z by lia.
      exact Hhi.
    + apply (nearest_exists_binade e); [lia | lia | exact Ht].
Qed.

Lemma nearest_exists t :
  (emin + 1 <= emax)%Z ->
  Rabs t <= pow2 (emax + prec - 1) ->
  exists z, nearest (representable prec emin emax) t z.
Proof.
  intros He Ht. destruct (Rle_dec 0 t) as [Hp | Hn].
  - apply nearest_exists_nonneg; [exact He |].
    rewrite Rabs_pos_eq in Ht by exact Hp. lra.
  - destruct (nearest_exists_nonneg (- t) He) as (z & Hz).
    + rewrite Rabs_left in Ht by lra. lra.
    + exists (- z). rewrite <- (Ropp_involutive t).
      apply nearest_opp; [apply representable_opp | exact Hz].
Qed.

End Format.

(** [pow2] at a concrete exponent, as a numeral or the inverse of one. *)
Lemma pow2_neg_IZR n : (0 <= n)%Z -> pow2 (- n) = / IZR (2 ^ n).
Proof. intros Hn. now rewrite pow2_neg, pow2_IZR. Qed.

Ltac pow2_numeral :=
  repeat match goal with
         | |- context [pow2 (Z.neg ?p)] =>
             let v := eval vm_compute in (2 ^ Z.pos p)%Z in
             replace (pow2 (Z.neg p)) with (/ IZR v)
               by (symmetry; apply (pow2_neg_IZR (Z.pos p)); lia)
         | |- context [pow2 (Z.pos ?p)] =>
             let v := eval vm_compute in (2 ^ Z.pos p)%Z in
             replace (pow2 (Z.pos p)) with (IZR v)
               by (symmetry; apply (pow2_IZR (Z.pos p)); lia)
         end.


Lemma binary32_0 : binary32 0.
Proof.
  replace 0 with (IZR 0 * pow2 0) by ring.
  apply representable_intro; [reflexivity | lia].
Qed.



(** ** [fmod] and [np.mod] *)








(** ** Phases in double precision *)








(** ** Samples in single precision *)

Lemma binary64_1 : binary64 1.
Proof.
  replace 1 with (IZR 1 * pow2 0) by (unfold pow2; simpl; ring).
  apply representable_intro; [reflexivity | lia].
Qed.

Lemma sample_written_total s vol :
  -1 <= s <= 1 -> 0 <= vol <= 1 -> exists z, sample_written s vol z.
Proof.
  intros Hs Hv.
  assert (H64 : 1 <= pow2 (971 + 53 - 1)).
  { replace 1 with (pow2 0) by reflexivity. apply pow2_le. lia. }
  assert (H32 : 1 <= pow2 (104 + 24 - 1)).
  { replace 1 with (pow2 0) by reflexivity. apply pow2_le. lia. }
  destruct (nearest_exists 53 (-1074) 971 ltac:(lia) (s * vol) ltac:(lia))
    as (p & Hp).
  { split_Rabs; nra. }
  assert (Bp : -1 <= p <= 1).
  { apply (nearest_between binary64 _ _ (s * vol)).
    - apply representable_opp, binary64_1.
    - apply binary64_1.
    - nra.
    - exact Hp. }
  destruct (nearest_exists 24 (-149) 104 ltac:(lia) p ltac:(lia))
    as (z & Hz).
  { split_Rabs; lra. }
  exists z, p. auto.
Qed.

(** C6, as amended.  For every rendered buffer, in every mode, every
    output sample lies in [[-u, u]] for every single-precision number
    [u] not below the volume, in particular for the volume rounded up to
    [np.float32]; so it lies in [[-volume, volume]] whenever the volume
    is itself a single-precision number.  [s] is the double of the
    channel array ([np.sin] of something, or 0.0), [vol] the double read
    from the volume channel for that buffer; for a volume up to 1 a
    sample is written for every such [s]. *)
Theorem samples_within_rounded_volume s vol u :
  -1 <= s <= 1 -> 0 <= vol -> binary64 vol ->
  binary32 u -> vol <= u ->
  (vol <= 1 -> exists z, sample_written s vol z) /\
  (forall z, sample_written s vol z -> - u <= z <= u).
Proof.
  intros Hs Hv Fv Fu Hu. split.
  - intros Hv1. apply sample_written_total; lra.
  - intros z (p & Hp & Hz).
    assert (Bp : - vol <= p <= vol).
    { apply (nearest_between binary64 _ _ (s * vol)); auto.
      - now apply representable_opp.
      - nra. }
    apply (nearest_between binary32 _ _ p); auto.
    + now apply representable_opp.
    + lra.
Qed.

Lemma binary64_tenth : binary64 tenth_f64.
Proof. apply representable_intro; [reflexivity | lia]. Qed.

Lemma binary32_tenth : binary32 tenth_f32.
Proof. apply representable_intro; [reflexivity | lia]. Qed.

Lemma tenth_f32_above :
  IZR 13421772 * pow2 (-27) < tenth_f64 < tenth_f32 /\
  tenth_f32 - tenth_f64 < tenth_f64 - IZR 13421772 * pow2 (-27) /\
  pow2 (-4) < IZR 13421772 * pow2 (-27).
Proof. unfold tenth_f64, tenth_f32. pow2_numeral. lra. Qed.

(** The single-precision numbers around the double 0.1. *)
Lemma binary32_around_tenth y :
  binary32 y ->
  y <= IZR 13421772 * pow2 (-27) \/ tenth_f32 <= y.
Proof.
  intros Fy. destruct tenth_f32_above as ((H1 & H2) & H3 & H4).
  destruct (Rle_dec (pow2 (-4)) y) as [Hy | Hy].
  - assert (Hy' : pow2 (-4) <= Rabs y).
    { rewrite Rabs_pos_eq; [exact Hy |]. pose proof (pow2_pos (-4)). lra. }
    destruct (representable_grid 24 (-149) 104 y (-4) ltac:(lia) Fy Hy')
      as (j & ->).
    replace (-4 - 24 + 1)%Z with (-27)%Z by lia.
    pose proof (pow2_pos (-27)) as HP. unfold tenth_f32.
    destruct (Z_le_gt_dec j 13421772) as [Hj | Hj].
    + left. apply IZR_le in Hj. nra.
    + right. assert (Hj' : (13421773 <= j)%Z) by lia.
      apply IZR_le in Hj'. nra.
  - left. lra.
Qed.

Lemma cast_of_tenth z :
  nearest binary32 tenth_f64 z <-> z = tenth_f32.
Proof.
  destruct tenth_f32_above as ((H1 & H2) & H3 & H4).
  split.
  - intros [Fz H]. specialize (H tenth_f32 binary32_tenth).
    destruct (binary32_around_tenth z Fz) as [Hlo | Hhi].
    + exfalso. split_Rabs; lra.
    + split_Rabs; lra.
  - intros ->. split; [exact binary32_tenth |]. intros y Fy.
    destruct (binary32_around_tenth y Fy); split_Rabs; lra.
Qed.

Lemma sample_written_tenth z :
  sample_written 1 tenth_f64 z <-> z = tenth_f32.
Proof.
  unfold sample_written. split.
  - intros (p & Hp & Hz).
    apply nearest_exact in Hp;
      [| rewrite Rmult_1_l; exact binary64_tenth].
    rewrite Rmult_1_l in Hp. subst p. now apply cast_of_tenth.
  - intros ->. exists tenth_f64. split.
    + rewrite Rmult_1_l. apply nearest_refl, binary64_tenth.
    + now apply cast_of_tenth.
Qed.

Lemma samples_within_rounded_volume_witness :
  (exists z, sample_written 1 tenth_f64 z) /\
  sample_written 1 tenth_f64 tenth_f32 /\
  - tenth_f32 <= tenth_f32 <= tenth_f32.
Proof.
  assert (H : sample_written 1 tenth_f64 tenth_f32)
    by now apply sample_written_tenth.
  assert (H1 : -1 <= 1 <= 1) by lra.
  assert (H2 : 0 <= tenth_f64 <= 1).
  { unfold tenth_f64. pow2_numeral. lra. }
  assert (H3 : tenth_f64 <= tenth_f32).
  { destruct tenth_f32_above as ((_ & H') & _). lra. }
  destruct (samples_within_rounded_volume 1 tenth_f64 tenth_f32
              H1 (proj1 H2) binary64_tenth binary32_tenth H3) as [Hex Hall].
  split; [exact (Hex (proj2 H2)) |]. split; [exact H |]. exact (Hall _ H).
Defined.

(** C6, as stated, fails: at base 200, beat 10 and sample rate 44100 the
    left channel of frame 735 of the first buffer is the sine of
    [13 * PI / 2], that is 1; with the volume 0.1 the product is the
    double 0.1, and its cast to [np.float32] is the single-precision
    number next above 0.1, outside [[-volume, volume]]. *)
Lemma float32_cast_exceeds_volume :
  sin (0 + 2 * PI * (200 - 10 / 2) / IZR 44100 * IZR 735) = 1 /\
  (exists z, sample_written 1 tenth_f64 z) /\
  (forall z, sample_written 1 tenth_f64 z ->
             ~ (- tenth_f64 <= z <= tenth_f64)).
Proof.
  split; [| split].
  - replace (0 + 2 * PI * (200 - 10 / 2) / IZR 44100 * IZR 735)
      with (PI / 2 + 2 * IZR 3 * PI) by field.
    rewrite sin_period_Z. apply sin_PI2.
  - exists tenth_f32. now apply sample_written_tenth.
  - intros z Hz. apply sample_written_tenth in Hz. subst z.
    destruct tenth_f32_above as ((_ & H) & _). lra.
Qed.

(** * The session guards under interleaving *)

Lemma stop_idle_registered s h :
  btn_consistent (self s) ->
  is_playing (self s) = false -> stream (self s) = Some h ->
  stop s
  = mkState (set_stream (self s) None) (workers s)
            (stop_and_close (streams s) h).
Proof.
  destruct s as [a ws ss]. destruct a. unfold btn_consistent, stop. simpl.
  intros Hb Hp Hs. subst. reflexivity.
Qed.

(** C8, as amended.  In every reachable state: [start()] called while
    the running flag is set returns the state it was given, worker list
    included, so it spawns nothing; [stop()] called while the flag is
    clear returns the state it was given when [self.stream] is [None],
    and when a stream object is still registered it stops and closes
    that stream, sets [self.stream] to [None] and changes nothing
    else. *)
Theorem start_stop_noop s :
  reachable s ->
  (is_playing (self s) = true -> start s = s) /\
  (is_playing (self s) = false -> stream (self s) = None -> stop s = s) /\
  (is_playing (self s) = false ->
   forall h, stream (self s) = Some h ->
     stop s
     = mkState (set_stream (self s) None) (workers s)
               (stop_and_close (streams s) h)).
Proof.
  intros Hr. apply reachable_btn_consistent in Hr.
  split; [apply start_while_playing |].
  split; [now apply stop_idle_unregistered |].
  intros Hp h Hs. now apply stop_idle_registered.
Qed.

Lemma start_stop_noop_witness :
  start (start init) = start init /\
  stop init = init /\
  exists s,
    run (AStart :: AStop :: worker_to_end 0) init = Some s /\
    stop s
    = mkState (set_stream (self s) None) (workers s)
              (stop_and_close (streams s) 0).
Proof.
  split; [| split].
  - apply (start_stop_noop (start init)); [| reflexivity].
    apply (reachable_step AStart init); [apply reachable_init | reflexivity].
  - apply (start_stop_noop init); [apply reachable_init | | ]; reflexivity.
  - eexists. split; [run_trace; reflexivity |].
    refine (proj2 (proj2 (start_stop_noop _ _)) _ 0%nat _).
    + apply (run_reachable (AStart :: AStop :: worker_to_end 0) init);
        [apply reachable_init | run_trace; reflexivity].
    + reflexivity.
    + reflexivity.
Defined.

(** C8, as stated, fails, twice.  When Start and Stop are pressed before
    the worker has registered its stream, the worker still runs [_play]
    to its end and leaves its closed stream in [self.stream]: no session
    is playing, and a [stop()] issued then changes the state.  And when
    Start is pressed again at that point instead, both workers reach
    their loops: two sessions run at once, each with an active stream. *)
Lemma start_stop_guards_fail :
  (exists s,
     run (AStart :: AStop :: worker_to_end 0) init = Some s /\
     reachable s /\
     is_playing (self s) = false /\
     nth_error (workers s) 0 = Some WDone /\
     stop s <> s) /\
  (exists s,
     run two_sessions init = Some s /\
     reachable s /\
     nth_error (workers s) 0 = Some (WPolling None 0) /\
     nth_error (workers s) 1 = Some (WPolling None 1) /\
     status_of s 0 = Some Active /\
     status_of s 1 = Some Active).
Proof.
  split.
  - eexists. split; [run_trace; reflexivity |].
    split.
    { apply (run_reachable (AStart :: AStop :: worker_to_end 0) init);
        [apply reachable_init | run_trace; reflexivity]. }
    split; [reflexivity |]. split; [reflexivity |].
    intros E. apply (f_equal (fun s => stream (self s))) in E.
    discriminate E.
  - eexists. split; [run_trace; reflexivity |].
    split.
    { apply (run_reachable two_sessions init);
        [apply reachable_init | run_trace; reflexivity]. }
    repeat split; reflexivity.
Qed.

Lemma mod_2PI_positive q k :
  IZR k < q < IZR k + 1 -> 0 < Np.mod_ (q * (2 * PI)) (2 * PI).
Proof.
  intros Hq. pose proof two_PI_pos as Hpi.
  rewrite mod_frac by lra. unfold frac_part.
  replace (q * (2 * PI) / (2 * PI)) with q by (field; lra).
  rewrite <- (Int_part_spec q k) by lra.
  apply Rmult_lt_0_compat; lra.
Qed.

(** C9, evaluated at the failing input: Start, Stop and Start pressed
    before the first worker has run.  The first session has ended by
    [stop()]; the worker of the next [start()] has reset the counter and
    the phases (lines 95-97), but before its stream starts the stream of
    the first worker renders a buffer.  When the second stream becomes
    active and begins rendering, the sample counter is 1024 and neither
    phase is 0. *)
Theorem late_stream_renders_from_nonzero :
  exists s,
    run late_second_stream init = Some s /\
    nth_error (workers s) 1 = Some (WPolling None 1) /\
    stream (self s) = Some 1%nat /\
    status_of s 1 = Some Active /\
    t_sample (self s) = 1024%Z /\
    phase_left (self s) <> 0 /\
    phase_right (self s) <> 0.
Proof.
  eexists. split; [run_trace; reflexivity |].
  split; [reflexivity |]. split; [reflexivity |]. split; [reflexivity |].
  split; [reflexivity |].
  run_trace. split; intros E.
  - replace (0 + 2 * PI * (200 - 10 / 2) / 44100 * 1024)
      with (IZR 199680 / IZR 44100 * (2 * PI)) in E by field.
    pose proof (mod_2PI_positive (IZR 199680 / IZR 44100) 4 ltac:(lra)).
    lra.
  - replace (0 + 2 * PI * (200 + 10 / 2) / 44100 * 1024)
      with (IZR 209920 / IZR 44100 * (2 * PI)) in E by field.
    pose proof (mod_2PI_positive (IZR 209920 / IZR 44100) 4 ltac:(lra)).
    lra.
Qed.

(** * The fallback branch and the duration bound *)

Lemma poll_step s i ft h :
  nth_error (workers s) i = Some (WPolling ft h) ->
  exists s',
    step (AWorker i) s = Some s' /\
    nth_error (workers s') i
    = Some (if keep_polling (self s) ft then WPolling ft h else WLeaving h) /\
    self s' = self s /\ streams s' = streams s.
Proof.
  intros Hw. simpl. rewrite Hw. simpl.
  destruct (keep_polling (self s) ft); eexists;
    (split; [reflexivity |]); simpl; repeat split.
  - exact (nth_error_update_eq _ _ (fun _ => WPolling ft h) _ Hw).
  - exact (nth_error_update_eq _ _ (fun _ => WLeaving h) _ Hw).
Qed.

(** C10.  In the fallback branch a buffer of [n] frames advances the
    sample counter by [n] and changes nothing else of [self], the two
    phase accumulators included.  Hence in a duration-bounded session
    whose mode is not recognized, after [k] buffers of [n] frames the
    counter has moved by [k * n], and the polling worker stays in its
    loop while that is below [frames_total] and leaves it as soon as it
    is not: the session ends after the same number of buffers as in the
    other modes. *)
Theorem fallback_advances_counter p s h i hw ft n k :
  p_mode p <> "constant"%string -> p_mode p <> "alternating"%string ->
  nth_error (streams s) h = Some (mkStream Active p) ->
  is_playing (self s) = true ->
  nth_error (workers s) i = Some (WPolling (Some ft) hw) ->
  callback_of p (self s) n
  = Rendered (repeat (0, 0) n)
             (set_t_sample (self s) (t_sample (self s) + Z.of_nat n)) /\
  exists s1 s2,
    run (callbacks h n k) s = Some s1 /\
    self s1 = set_t_sample (self s)
                (t_sample (self s) + Z.of_nat k * Z.of_nat n) /\
    step (AWorker i) s1 = Some s2 /\
    nth_error (workers s2) i
    = Some (if (t_sample (self s) + Z.of_nat k * Z.of_nat n <? ft)%Z
            then WPolling (Some ft) hw else WLeaving hw).
Proof.
  intros Hc Ha Hs Hp Hw. split.
  - unfold callback_of. now apply callback_fallback.
  - rewrite (callbacks_fallback p s h n k Hc Ha Hs Hp).
    destruct (poll_step
                (mkState (set_t_sample (self s)
                            (t_sample (self s) + Z.of_nat k * Z.of_nat n))
                         (workers s) (streams s)) i (Some ft) hw Hw)
      as (s2 & E & Hw2 & _).
    eexists _, s2. split; [reflexivity |]. split; [reflexivity |].
    split; [exact E |].
    rewrite Hw2. simpl. now rewrite Hp.
Qed.

Lemma fallback_advances_counter_witness :
  run (AEntries 200 10 "silent" :: AStart :: worker_setup 0)
      (init_with_duration (1 / 100))
  = Some
      (mkState
         (mkApp true (Some 0%nat) (Some 0%nat) 44100%Z (Some (1 / 100))
            (5 / 10) 200 10 "silent"
            (Some (mkParams 200 10 "silent" 44100 (Some (1 / 100))))
            (5 / 10) 0 0 0%Z "Stop")
         [WPolling (Some 441%Z) 0]
         [mkStream Active (mkParams 200 10 "silent" 44100 (Some (1 / 100)))])
  /\
  exists s1 s2 s3 s4,
    run (callbacks 0 256 1)
        (mkState
           (mkApp true (Some 0%nat) (Some 0%nat) 44100%Z (Some (1 / 100))
              (5 / 10) 200 10 "silent"
              (Some (mkParams 200 10 "silent" 44100 (Some (1 / 100))))
              (5 / 10) 0 0 0%Z "Stop")
           [WPolling (Some 441%Z) 0]
           [mkStream Active (mkParams 200 10 "silent" 44100 (Some (1 / 100)))])
    = Some s1 /\
    t_sample (self s1) = 256%Z /\
    step (AWorker 0) s1 = Some s2 /\
    nth_error (workers s2) 0 = Some (WPolling (Some 441%Z) 0) /\
    run (callbacks 0 256 2)
        (mkState
           (mkApp true (Some 0%nat) (Some 0%nat) 44100%Z (Some (1 / 100))
              (5 / 10) 200 10 "silent"
              (Some (mkParams 200 10 "silent" 44100 (Some (1 / 100))))
              (5 / 10) 0 0 0%Z "Stop")
           [WPolling (Some 441%Z) 0]
           [mkStream Active (mkParams 200 10 "silent" 44100 (Some (1 / 100)))])
    = Some s3 /\
    t_sample (self s3) = 512%Z /\
    step (AWorker 0) s3 = Some s4 /\
    nth_error (workers s4) 0 = Some (WLeaving 0).
Proof.
  split.
  { run_trace. rewrite frames_total_reference. run_trace. reflexivity. }
  destruct (fallback_advances_counter
              (mkParams 200 10 "silent" 44100 (Some (1 / 100)))
              (mkState
                 (mkApp true (Some 0%nat) (Some 0%nat) 44100%Z
                    (Some (1 / 100)) (5 / 10) 200 10 "silent"
                    (Some (mkParams 200 10 "silent" 44100 (Some (1 / 100))))
                    (5 / 10) 0 0 0%Z "Stop")
                 [WPolling (Some 441%Z) 0]
                 [mkStream Active
                    (mkParams 200 10 "silent" 44100 (Some (1 / 100)))])
              0 0 0 441 256 1)
    as (_ & s1 & s2 & R1 & E1 & S1 & W1);
    [discriminate | discriminate | reflexivity | reflexivity | reflexivity |].
  destruct (fallback_advances_counter
              (mkParams 200 10 "silent" 44100 (Some (1 / 100)))
              (mkState
                 (mkApp true (Some 0%nat) (Some 0%nat) 44100%Z
                    (Some (1 / 100)) (5 / 10) 200 10 "silent"
                    (Some (mkParams 200 10 "silent" 44100 (Some (1 / 100))))
                    (5 / 10) 0 0 0%Z "Stop")
                 [WPolling (Some 441%Z) 0]
                 [mkStream Active
                    (mkParams 200 10 "silent" 44100 (Some (1 / 100)))])
              0 0 0 441 256 2)
    as (_ & s3 & s4 & R3 & E3 & S3 & W3);
    [discriminate | discriminate | reflexivity | reflexivity | reflexivity |].
  exists s1, s2, s3, s4.
  split; [exact R1 |]. split; [rewrite E1; reflexivity |].
  split; [exact S1 |]. split; [exact W1 |].
  split; [exact R3 |]. split; [rewrite E3; reflexivity |].
  split; [exact S3 | exact W3].
Defined.
